(** * CrowdSec: staged event parsing and PAPI long-poll synchronisation

    A shallow embedding of

    - [pkg/types]     : the [Event] record that flows through the parsers,
    - [pkg/parser]    : [stageidx], [Parse], [ProcessStatics], [CheckExprWL],
    - [pkg/apiserver] : [reverse], [handleEvent], [PullOnce], the body of the
                        [Pull] loop and [SendDeletedDecisions],

    together with the properties the specification states about them.

    Conventions.  Go's [(value, error)] results are pairs whose second
    component is an [option error] ([None] is [nil]).  A pointer receiver
    that is mutated is returned as the new value.  Go maps that may be
    [nil] are [option (gmap _ _)].  Collaborators that live outside these
    packages (node matching, enrichment plugins, the database, the
    transport, the central API) are section variables: every theorem holds
    for all of their behaviours, and the fixtures at the end of the file
    instantiate them. *)

From Stdlib Require Import ZArith String List Lia.
From stdpp Require Import base option list gmap strings pretty.

Set Warnings "-register-all".

Open Scope string_scope.
Open Scope list_scope.
Open Scope Z_scope.

(** Go's [error] values are identified with their message. *)
Abbreviation error := string (only parsing).

Lemma in_here {A} (x : A) (l : list A) : x ∈ x :: l.
Proof. apply elem_of_cons. by left. Qed.

Lemma in_further {A} (x y : A) (l : list A) : x ∈ l -> x ∈ y :: l.
Proof. intros. apply elem_of_cons. by right. Qed.

(** Go's [any], as far as the type switches of the parser tell dynamic
    values apart.  [VOther] stands for every other dynamic type and
    carries the type's name. *)
Inductive any :=
| VNil
| VString (s : string)
| VInt (z : Z)
| VFloat64 (bits : Z)
| VFloat32 (bits : Z)
| VBool (b : bool)
| VMapStringAny (m : list (string * any))
| VSliceAny (l : list any)
| VOther (typ : string).

(* ================================================================== *)
(** * Logging (logrus) *)
(* ================================================================== *)

Module log.

Inductive Level := Trace | Debug | Info | Warning | Error | Fatal.

#[global] Instance Level_eq_dec : EqDecision Level.
Proof. solve_decision. Defined.

(** An argument of a logging call. *)
Inductive Arg :=
| AStr (s : string)
| AInt (z : Z)
| AAny (v : any).

Coercion AStr : string >-> Arg.

(** One call of a logger method: the level, the format string as written
    in the source, and the arguments in order. *)
Record Entry := mkEntry { level : Level; format : string; args : list Arg }.

(** The output of a logger, oldest entry first. *)
Abbreviation Log := (list Entry).

Definition emit (lv : Level) (fmt : string) (a : list Arg) (l : Log) : Log :=
  l ++ [mkEntry lv fmt a].

(** The entries of a log at a given level. *)
Definition at_level (lv : Level) (l : Log) : Log :=
  filter (fun en => level en = lv) l.

End log.

(* ================================================================== *)
(** * time *)
(* ================================================================== *)

Module time.

(** A [time.Time] is the number of nanoseconds since the zero instant;
    a [time.Duration] is a number of nanoseconds. *)
Definition Time := Z.
Definition Duration := Z.

Definition Second : Duration := 1000000000.

Definition IsZero (t : Time) : bool := bool_decide (t = 0).

End time.

(* ================================================================== *)
(** * pkg/types *)
(* ================================================================== *)

Module types.

Definition LOG : Z := 0.
Definition OVFLW : Z := 1.
Definition APPSEC : Z := 2.

(** The part of [types.Line] the parser reads. *)
Record Line := mkLine {
  Raw : string;
  Src : string;
  Labels : gmap string string;
  Module_ : string
}.

(** [types.Event].  The overflow and appsec payloads, which none of the
    functions below reads or writes, are left out. *)
Record Event := mkEvent {
  Type_ : Z;
  ExpectMode : Z;
  Whitelisted : bool;
  WhitelistReason : string;
  Stage : string;
  Line_ : Line;
  Parsed : option (gmap string string);
  Enriched : option (gmap string string);
  Unmarshaled : option (gmap string any);
  Time : time.Time;
  StrTime : string;
  StrTimeFormat : string;
  MarshaledTime : string;
  Process : bool;
  Meta : option (gmap string string)
}.

Definition set_Stage (s : string) (e : Event) : Event :=
  mkEvent (Type_ e) (ExpectMode e) (Whitelisted e) (WhitelistReason e) s
    (Line_ e) (Parsed e) (Enriched e) (Unmarshaled e) (Time e) (StrTime e)
    (StrTimeFormat e) (MarshaledTime e) (Process e) (Meta e).

Definition set_Process (b : bool) (e : Event) : Event :=
  mkEvent (Type_ e) (ExpectMode e) (Whitelisted e) (WhitelistReason e) (Stage e)
    (Line_ e) (Parsed e) (Enriched e) (Unmarshaled e) (Time e) (StrTime e)
    (StrTimeFormat e) (MarshaledTime e) b (Meta e).

Definition set_Time (t : time.Time) (e : Event) : Event :=
  mkEvent (Type_ e) (ExpectMode e) (Whitelisted e) (WhitelistReason e) (Stage e)
    (Line_ e) (Parsed e) (Enriched e) (Unmarshaled e) t (StrTime e)
    (StrTimeFormat e) (MarshaledTime e) (Process e) (Meta e).

Definition set_Parsed (m : option (gmap string string)) (e : Event) : Event :=
  mkEvent (Type_ e) (ExpectMode e) (Whitelisted e) (WhitelistReason e) (Stage e)
    (Line_ e) m (Enriched e) (Unmarshaled e) (Time e) (StrTime e)
    (StrTimeFormat e) (MarshaledTime e) (Process e) (Meta e).

Definition set_Enriched (m : option (gmap string string)) (e : Event) : Event :=
  mkEvent (Type_ e) (ExpectMode e) (Whitelisted e) (WhitelistReason e) (Stage e)
    (Line_ e) (Parsed e) m (Unmarshaled e) (Time e) (StrTime e)
    (StrTimeFormat e) (MarshaledTime e) (Process e) (Meta e).

Definition set_Unmarshaled (m : option (gmap string any)) (e : Event) : Event :=
  mkEvent (Type_ e) (ExpectMode e) (Whitelisted e) (WhitelistReason e) (Stage e)
    (Line_ e) (Parsed e) (Enriched e) m (Time e) (StrTime e)
    (StrTimeFormat e) (MarshaledTime e) (Process e) (Meta e).

Definition set_Meta (m : option (gmap string string)) (e : Event) : Event :=
  mkEvent (Type_ e) (ExpectMode e) (Whitelisted e) (WhitelistReason e) (Stage e)
    (Line_ e) (Parsed e) (Enriched e) (Unmarshaled e) (Time e) (StrTime e)
    (StrTimeFormat e) (MarshaledTime e) (Process e) m.

(** [make(map[K]V)] when the map is [nil], the map itself otherwise. *)
Definition make_if_nil {V} (m : option (gmap string V)) : option (gmap string V) :=
  match m with
  | None => Some ∅
  | Some _ => m
  end.

End types.

(* ================================================================== *)
(** * pkg/parser *)
(* ================================================================== *)

Module parser.

(** ** Expressions

    Modelled from the spec: the expression evaluator ([exprhelpers.Run]
    over a compiled [vm.Program]) is an external collaborator with the
    contract "run a compiled program against an environment, get a typed
    result or an error".  A compiled program is identified with the
    function it computes; the only binding the parser puts in an
    environment is ["evt"]. *)
Abbreviation ExprEnv := (gmap string types.Event).
Definition Program := ExprEnv -> any * option error.

Definition Run (p : Program) (env : ExprEnv) : any * option error := p env.

(** An enrichment plugin's [EnrichFunc(value, event, logger)]: it may
    update the event it is handed and returns the entries to merge. *)
Definition EnrichFunc :=
  string -> types.Event -> types.Event * (gmap string string * option error).

(** [ExtraField]: one static assignment. *)
Record ExtraField := mkExtraField {
  TargetByName : string;
  Parsed : string;
  Enriched : string;
  Meta : string;
  Value : string;
  ExpValue : string;
  RunTimeValue : option Program;
  Method : string
}.

Record ExprWhitelist := mkExprWhitelist { Filter : Program }.

Record Whitelist := mkWhitelist {
  Reason : string;
  Ips : list string;
  B_Ips : list string;
  Cidrs : list string;
  B_Cidrs : list string;
  Exprs : list string;
  B_Exprs : list ExprWhitelist
}.

Record EnricherCtx := mkEnricherCtx { Registered : gmap string EnrichFunc }.

(** The fields of [Node] that the functions below use. *)
Record Node := mkNode {
  rn : string;
  Name : string;
  Stage : string;
  OnSuccess : string;
  Profiling : bool;
  Debug : bool;
  Whitelist_ : Whitelist;
  Statics : list ExtraField;
  EnrichFunctions : EnricherCtx
}.

Definition set_Profiling (b : bool) (n : Node) : Node :=
  mkNode (rn n) (Name n) (Stage n) (OnSuccess n) b (Debug n)
    (Whitelist_ n) (Statics n) (EnrichFunctions n).

Record UnixParserCtx := mkCtx {
  Stages : list string;
  CtxProfiling : bool
}.

(** ** [stageidx] *)

(** The loop [for i, v := range stages], entered at index [i]. *)
Fixpoint stageidx_from (i : Z) (stage : string) (stages : list string) : Z :=
  match stages with
  | [] => -1
  | v :: rest => if decide (stage = v) then i else stageidx_from (i + 1) stage rest
  end.

Definition stageidx (stage : string) (stages : list string) : Z :=
  stageidx_from 0 stage stages.

Section Runtime.

(** [Node.process(event, ctx, env)] is defined with the node matching
    logic, outside the runtime: it may rewrite the event it is handed and
    answers [(ret, err)]. *)
Variable process :
  Node -> types.Event -> UnixParserCtx -> ExprEnv -> types.Event * (bool * option error).

(** ** [Parse]

    The diagnostic dump ([ParseDump], [StageParseCache]) and the trace
    output are write-only side channels and are not part of the model. *)

(** How the inner loop over the nodes ends. *)
Inductive NodesResult :=
| NodesDone (event : types.Event) (isStageOK : bool)
| NodesError (event : types.Event) (err : error).

(** [for idx := range nodes { ... }] for the configured stage [stage],
    entered with the current [event] and [isStageOK]. *)
Fixpoint nodes_loop (ctx : UnixParserCtx) (stage : string) (nodes : list Node)
    (event : types.Event) (isStageOK : bool) : NodesResult :=
  match nodes with
  | [] => NodesDone event isStageOK
  | node :: rest =>
      (* Only process current stage's nodes *)
      if decide (types.Stage event <> Stage node) then
        nodes_loop ctx stage rest event isStageOK
      else
        let node := if CtxProfiling ctx then set_Profiling true node else node in
        let '(event, (ret, err)) := process node event ctx {[ "evt" := event ]} in
        match err with
        | Some err => NodesError event err
        | None =>
            let isStageOK := if ret then true else isStageOK in
            if ret && bool_decide (OnSuccess node = "next_stage") then
              NodesDone event isStageOK
            else if decide (types.Stage event <> stage) then
              (* the parsed object moved onto the next phase *)
              NodesDone event isStageOK
            else nodes_loop ctx stage rest event isStageOK
        end
  end.

(** How the outer loop over the stages ends: with one of the [return]s
    in its body, or by running out of stages. *)
Inductive StagesResult :=
| StagesReturn (event : types.Event) (err : option error)
| StagesDone (event : types.Event).

(** [for _, stage := range ctx.Stages { ... }] over the stages that
    remain. *)
Fixpoint stages_loop (ctx : UnixParserCtx) (remaining : list string)
    (nodes : list Node) (event : types.Event) : StagesResult :=
  match remaining with
  | [] => StagesDone event
  | stage :: rest =>
      (* if the node is forward in stages, seek to this stage *)
      if decide (stageidx (types.Stage event) (Stages ctx) > stageidx stage (Stages ctx)) then
        stages_loop ctx rest nodes event
      else if decide (types.Stage event <> stage) then
        StagesReturn (types.set_Process false event) None
      else
        match nodes_loop ctx stage nodes event false with
        | NodesError event err => StagesReturn event (Some err)
        | NodesDone event isStageOK =>
            if negb isStageOK then
              StagesReturn (types.set_Process false event) None
            else stages_loop ctx rest nodes event
        end
  end.

(** The statements of [Parse] before the stage loop; [now] is the value
    of [time.Now().UTC()]. *)
Definition Parse_init (ctx : UnixParserCtx) (now : time.Time) (xp : types.Event)
    : types.Event :=
  let event := xp in
  let event :=
    match Stages ctx with
    | first :: _ =>
        if decide (types.Stage event = "") then types.set_Stage first event else event
    | [] => event
    end in
  let event := types.set_Process false event in
  let event :=
    if time.IsZero (types.Time event) then types.set_Time now event else event in
  let event := types.set_Parsed (types.make_if_nil (types.Parsed event)) event in
  let event := types.set_Enriched (types.make_if_nil (types.Enriched event)) event in
  let event := types.set_Meta (types.make_if_nil (types.Meta event)) event in
  let event := types.set_Unmarshaled (types.make_if_nil (types.Unmarshaled event)) event in
  event.

Definition Parse (ctx : UnixParserCtx) (now : time.Time) (xp : types.Event)
    (nodes : list Node) : types.Event * option error :=
  let event := Parse_init ctx now xp in
  match stages_loop ctx (Stages ctx) nodes event with
  | StagesReturn event err => (event, err)
  | StagesDone event => (types.set_Process true event, None)
  end.

(** The node as [Parse] hands it to [process]. *)
Definition profiled (ctx : UnixParserCtx) (node : Node) : Node :=
  if CtxProfiling ctx then set_Profiling true node else node.

(** [b] is the stage [a] or comes later in the configured order. *)
Definition stage_le (ctx : UnixParserCtx) (a b : string) : Prop :=
  b = a \/ stageidx a (Stages ctx) < stageidx b (Stages ctx).

(** *** Facts about [stageidx] *)

Lemma stageidx_from_range i stage stages :
  stageidx_from i stage stages = -1 \/
  (i <= stageidx_from i stage stages < i + Z.of_nat (length stages)).
Proof.
  revert i. induction stages as [|v rest IH]; intros i; simpl.
  - now left.
  - destruct (decide (stage = v)); [right; lia|].
    destruct (IH (i + 1)) as [->|H]; [now left | right; lia].
Qed.

Lemma stageidx_from_absent i stage stages :
  stage ∉ stages -> stageidx_from i stage stages = -1.
Proof.
  revert i. induction stages as [|v rest IH]; intros i Hn; simpl; [done|].
  apply not_elem_of_cons in Hn as [Hne Hn].
  destruct (decide (stage = v)); [done | by apply IH].
Qed.

Lemma stageidx_from_present i stage stages :
  0 <= i -> stage ∈ stages -> 0 <= stageidx_from i stage stages.
Proof.
  revert i. induction stages as [|v rest IH]; intros i Hi Hin; simpl.
  - by apply elem_of_nil in Hin.
  - destruct (decide (stage = v)); [lia|].
    apply elem_of_cons in Hin as [?|Hin]; [done|]. apply IH; [lia | done].
Qed.

Lemma stageidx_head stage rest : stageidx stage (stage :: rest) = 0.
Proof. unfold stageidx; simpl. by destruct (decide (stage = stage)). Qed.

Lemma stage_le_refl ctx a : stage_le ctx a a.
Proof. by left. Qed.

Lemma stage_le_trans ctx a b c :
  stage_le ctx a b -> stage_le ctx b c -> stage_le ctx a c.
Proof.
  intros [->|Hab] [->|Hbc]; [by left | by right | by right | right; lia].
Qed.

(** *** The loops, piece by piece *)

Lemma stages_loop_app ctx pre post nodes event :
  stages_loop ctx (pre ++ post) nodes event =
  match stages_loop ctx pre nodes event with
  | StagesDone event' => stages_loop ctx post nodes event'
  | StagesReturn event' err => StagesReturn event' err
  end.
Proof.
  revert event. induction pre as [|s pre IH]; intros event; simpl; [done|].
  destruct (decide (stageidx (types.Stage event) (Stages ctx) > stageidx s (Stages ctx)));
    [apply IH|].
  destruct (decide (types.Stage event <> s)); [done|].
  destruct (nodes_loop ctx s nodes event false) as [e1 ok|e1 err]; [|done].
  destruct ok; simpl; [apply IH | done].
Qed.

(** Every call the inner loop makes is made on a node of the stage, with
    the event at that stage. *)
Lemma nodes_loop_matched ctx stage nodes event ok0 event1 :
  types.Stage event = stage ->
  nodes_loop ctx stage nodes event ok0 = NodesDone event1 true ->
  ok0 = true \/
  exists node e_in e_out,
    node ∈ nodes /\ Stage node = stage /\ types.Stage e_in = stage /\
    process (profiled ctx node) e_in ctx {[ "evt" := e_in ]} = (e_out, (true, None)).
Proof.
  revert event ok0. induction nodes as [|n rest IH]; intros event ok0 Hst Hrun; simpl in Hrun.
  - left. congruence.
  - destruct (decide (types.Stage event <> Stage n)) as [Hne|Heq].
    + destruct (IH _ _ Hst Hrun) as [?|(nd & ei & eo & Hin & ?)]; [by left|].
      right. exists nd, ei, eo. split; [by apply in_further | done].
    + apply dec_stable in Heq. fold (profiled ctx n) in Hrun.
      destruct (process (profiled ctx n) event ctx {[ "evt" := event ]})
        as [e1 [ret [err|]]] eqn:Hp; [done|].
      destruct ret.
      * right. exists n, event, e1.
        split; [apply in_here|]. split; [congruence|]. by split.
      * simpl in Hrun.
        destruct (decide (types.Stage e1 <> stage)) as [Hmoved|Hsame].
        { left. congruence. }
        apply dec_stable in Hsame.
        destruct (IH _ _ Hsame Hrun) as [?|(nd & ei & eo & Hin & ?)]; [by left|].
        right. exists nd, ei, eo. split; [by apply in_further | done].
Qed.

(** An error of the inner loop is the error of one of its calls. *)
Lemma nodes_loop_error_origin ctx stage nodes event ok0 event1 err :
  types.Stage event = stage ->
  nodes_loop ctx stage nodes event ok0 = NodesError event1 err ->
  exists node e_in ret,
    node ∈ nodes /\ Stage node = stage /\ types.Stage e_in = stage /\
    process (profiled ctx node) e_in ctx {[ "evt" := e_in ]} = (event1, (ret, Some err)).
Proof.
  revert event ok0.
  induction nodes as [|n rest IH]; intros event ok0 Hst Hrun; simpl in Hrun; [done|].
  destruct (decide (types.Stage event <> Stage n)) as [Hne|Heq].
  - destruct (IH _ _ Hst Hrun) as (nd & ei & r & Hin & ?).
    exists nd, ei, r. split; [by apply in_further | done].
  - apply dec_stable in Heq. fold (profiled ctx n) in Hrun.
    destruct (process (profiled ctx n) event ctx {[ "evt" := event ]})
      as [e1 [ret [er|]]] eqn:Hp.
    + inversion Hrun; subst. exists n, event, ret.
      split; [apply in_here|]. split; [congruence|]. by split.
    + destruct (ret && _); [discriminate|].
      destruct (decide (types.Stage e1 <> stage)) as [|Hsame]; [discriminate|].
      apply dec_stable in Hsame.
      destruct (IH _ _ Hsame Hrun) as (nd & ei & r & Hin & ?).
      exists nd, ei, r. split; [by apply in_further | done].
Qed.

(** When no node of the stage ever matches, the inner loop leaves
    [isStageOK] as it found it. *)
Lemma nodes_loop_no_match ctx stage nodes event ok0 :
  (forall node e env, node ∈ nodes -> Stage node = stage ->
     (process (profiled ctx node) e ctx env).2.1 = false) ->
  types.Stage event = stage ->
  match nodes_loop ctx stage nodes event ok0 with
  | NodesDone _ ok => ok = ok0
  | NodesError _ _ => True
  end.
Proof.
  revert event ok0. induction nodes as [|n rest IH]; intros event ok0 Hno Hst; simpl; [done|].
  assert (Hrest : forall node e env, node ∈ rest -> Stage node = stage ->
            (process (profiled ctx node) e ctx env).2.1 = false).
  { intros nd e env Hin. apply Hno. by apply in_further. }
  destruct (decide (types.Stage event <> Stage n)) as [Hne|Heq]; [by apply IH|].
  apply dec_stable in Heq. fold (profiled ctx n).
  specialize (Hno n event {[ "evt" := event ]} (in_here _ _)).
  destruct (process (profiled ctx n) event ctx {[ "evt" := event ]})
    as [e1 [ret [er|]]] eqn:Hp; [done|].
  simpl in Hno. rewrite Hno by congruence. simpl.
  destruct (decide (types.Stage e1 <> stage)) as [?|Hsame]; [done|].
  apply dec_stable in Hsame. by apply IH.
Qed.

(** *** Stage order *)

(** Two stages with the same order index, one of them configured, are
    the same stage. *)
Lemma stageidx_from_inj k a b stages :
  0 <= k ->
  stageidx_from k a stages = stageidx_from k b stages ->
  k <= stageidx_from k a stages ->
  a = b.
Proof.
  revert k. induction stages as [|v rest IH]; intros k Hk Heq Hconf; simpl in *; [lia|].
  pose proof (stageidx_from_range (k + 1) a rest) as Ha.
  pose proof (stageidx_from_range (k + 1) b rest) as Hb.
  destruct (decide (a = v)) as [->|Hav]; destruct (decide (b = v)) as [->|Hbv];
    try done; try lia.
  apply (IH (k + 1)); [lia | done | lia].
Qed.

(** No node of [nodes], called as [Parse] calls it (on an event at the
    node's own stage, a configured one, with the event bound to ["evt"]),
    leaves the event at a stage of lower order index.  A stage that is not
    configured has index [-1]: the node does not move the event to such a
    stage either. *)
Definition never_moves_back (ctx : UnixParserCtx) (nodes : list Node) : Prop :=
  forall node e,
    node ∈ nodes ->
    types.Stage e ∈ Stages ctx ->
    Stage node = types.Stage e ->
    stageidx (types.Stage e) (Stages ctx)
    <= stageidx (types.Stage (process (profiled ctx node) e ctx {[ "evt" := e ]}).1)
         (Stages ctx).

Lemma nodes_loop_stage_le ctx all stage nodes event ok0 :
  never_moves_back ctx all ->
  (forall node, node ∈ nodes -> node ∈ all) ->
  stage ∈ Stages ctx ->
  types.Stage event = stage ->
  match nodes_loop ctx stage nodes event ok0 with
  | NodesDone event' _ | NodesError event' _ =>
      stage_le ctx (types.Stage event) (types.Stage event')
  end.
Proof.
  intros Hback Hsub Hconf. revert event ok0.
  induction nodes as [|n rest IH]; intros event ok0 Hat; simpl; [apply stage_le_refl|].
  assert (Hrest : forall node, node ∈ rest -> node ∈ all).
  { intros node Hin. apply Hsub. by apply in_further. }
  destruct (decide (types.Stage event <> Stage n)) as [|Heq]; [by apply IH|].
  apply dec_stable in Heq. fold (profiled ctx n).
  assert (Hstep : stage_le ctx (types.Stage event)
            (types.Stage (process (profiled ctx n) event ctx {[ "evt" := event ]}).1)).
  { pose proof (Hback n event (Hsub n (in_here _ _))) as Hle.
    rewrite Hat in Hle. specialize (Hle Hconf (eq_sym (eq_trans (eq_sym Hat) Heq))).
    rewrite <- Hat in Hle.
    destruct (decide (stageidx (types.Stage event) (Stages ctx)
                      = stageidx (types.Stage (process (profiled ctx n) event ctx
                                                 {[ "evt" := event ]}).1) (Stages ctx)))
      as [Hsame|Hdiff]; [|right; lia].
    left. symmetry. apply (stageidx_from_inj 0 _ _ (Stages ctx)); [lia | exact Hsame |].
    apply stageidx_from_present; [lia|]. by rewrite Hat. }
  destruct (process (profiled ctx n) event ctx {[ "evt" := event ]})
    as [e1 [ret [er|]]]; simpl in Hstep; [done|].
  destruct (ret && _); [done|].
  destruct (decide (types.Stage e1 <> stage)) as [|Hsame]; [done|].
  apply dec_stable in Hsame.
  specialize (IH Hrest e1 (if ret then true else ok0) Hsame).
  destruct (nodes_loop ctx stage rest e1 _); eapply stage_le_trans; eauto.
Qed.

Lemma stages_loop_stage_le ctx remaining nodes event :
  never_moves_back ctx nodes ->
  (forall s, s ∈ remaining -> s ∈ Stages ctx) ->
  match stages_loop ctx remaining nodes event with
  | StagesReturn event' _ | StagesDone event' =>
      stage_le ctx (types.Stage event) (types.Stage event')
  end.
Proof.
  intros Hback. revert event.
  induction remaining as [|s rest IH]; intros event Hconf; simpl; [apply stage_le_refl|].
  assert (Hrest : forall s', s' ∈ rest -> s' ∈ Stages ctx).
  { intros s' Hin. apply Hconf. by apply in_further. }
  destruct (decide (_ > _)); [by apply IH|].
  destruct (decide (types.Stage event <> s)) as [|Hat]; [apply stage_le_refl|].
  apply dec_stable in Hat.
  pose proof (nodes_loop_stage_le ctx nodes s nodes event false Hback (fun _ H => H)
                (Hconf s (in_here _ _)) Hat) as Hin.
  destruct (nodes_loop ctx s nodes event false) as [e1 ok|e1 er]; [|done].
  destruct ok; simpl; [|done].
  specialize (IH e1 Hrest).
  destruct (stages_loop ctx rest nodes e1); eapply stage_le_trans; eauto.
Qed.

(** When the inner loop ends with [isStageOK] set, one node set it: the
    first node of the stage that matched, called on the event that the
    nodes before it left. *)
Lemma nodes_loop_first_match ctx stage nodes event event1 :
  types.Stage event = stage ->
  nodes_loop ctx stage nodes event false = NodesDone event1 true ->
  exists before node after e_in e_out,
    nodes = before ++ node :: after /\
    Stage node = stage /\
    nodes_loop ctx stage before event false = NodesDone e_in false /\
    types.Stage e_in = stage /\
    process (profiled ctx node) e_in ctx {[ "evt" := e_in ]} = (e_out, (true, None)).
Proof.
  revert event. induction nodes as [|n rest IH]; intros event Hat Hrun; simpl in Hrun;
    [done|].
  destruct (decide (types.Stage event <> Stage n)) as [Hne|Heq].
  - destruct (IH _ Hat Hrun) as (before & node & after & e_in & e_out & -> & Hs & Hb & Hrest).
    exists (n :: before), node, after, e_in, e_out. split; [done|]. split; [done|].
    split; [|done]. simpl. by destruct (decide (types.Stage event <> Stage n)).
  - pose proof Heq as Heq'. apply dec_stable in Heq'. fold (profiled ctx n) in Hrun.
    destruct (process (profiled ctx n) event ctx {[ "evt" := event ]})
      as [e1 [ret [err|]]] eqn:Hp; [done|].
    destruct ret.
    + exists [], n, rest, event, e1. split; [done|]. split; [congruence|]. by split.
    + cbn [andb] in Hrun.
      destruct (decide (types.Stage e1 <> stage)) as [|Hsame]; [done|].
      pose proof Hsame as Hsame'. apply dec_stable in Hsame'.
      destruct (IH _ Hsame' Hrun)
        as (before & node & after & e_in & e_out & -> & Hs & Hb & Hrest).
      exists (n :: before), node, after, e_in, e_out. split; [done|]. split; [done|].
      split; [|done]. simpl.
      destruct (decide (types.Stage event <> Stage n)); [done|].
      fold (profiled ctx n). rewrite Hp. cbn [andb].
      by destruct (decide (types.Stage e1 <> stage)).
Qed.

Lemma Parse_init_Stage ctx now xp :
  types.Stage (Parse_init ctx now xp) =
  match Stages ctx with
  | first :: _ => if decide (types.Stage xp = "") then first else types.Stage xp
  | [] => types.Stage xp
  end.
Proof.
  unfold Parse_init.
  destruct (Stages ctx) as [|first rest]; simpl.
  - by destruct (time.IsZero _).
  - destruct (decide (types.Stage xp = "")); simpl; by destruct (time.IsZero _).
Qed.

Lemma Parse_init_stage_le ctx now xp :
  "" ∉ Stages ctx ->
  stage_le ctx (types.Stage xp) (types.Stage (Parse_init ctx now xp)).
Proof.
  intros Hempty. rewrite Parse_init_Stage.
  destruct (Stages ctx) as [|first rest] eqn:Hst; [apply stage_le_refl|].
  destruct (decide (types.Stage xp = "")) as [Hx|]; [|apply stage_le_refl].
  right. rewrite Hx, Hst. rewrite stageidx_head.
  unfold stageidx. rewrite stageidx_from_absent; [lia | done].
Qed.

(** Reaching the end of the stage loop means that every stage on the way
    was either skipped or won by a node. *)
Lemma stages_loop_done_at ctx pre s post nodes event0 event :
  stages_loop ctx (pre ++ s :: post) nodes event0 = StagesDone event ->
  exists ek,
    stages_loop ctx pre nodes event0 = StagesDone ek /\
    (stageidx (types.Stage ek) (Stages ctx) > stageidx s (Stages ctx) \/
     (types.Stage ek = s /\
      exists e1, nodes_loop ctx s nodes ek false = NodesDone e1 true)).
Proof.
  rewrite stages_loop_app.
  destruct (stages_loop ctx pre nodes event0) as [|ek]; [done|].
  intros Hrun. exists ek. split; [done|]. simpl in Hrun.
  destruct (decide (_ > _)); [by left|].
  destruct (decide (types.Stage ek <> s)) as [|Heq]; [done|].
  apply dec_stable in Heq. right. split; [done|].
  destruct (nodes_loop ctx s nodes ek false) as [e1 ok|]; [|done].
  destruct ok; [by exists e1 | done].
Qed.

(** *** The properties of [Parse] *)

(** C1 (as amended).  Whenever [Parse] returns:

    - provided the empty string is not a configured stage and no node,
      called on an event at its own configured stage, leaves the event at
      a stage of lower order index (a stage that is not configured has
      index [-1]), the stage of the returned event is the stage of the
      event [Parse] was given or a later one in the configured order;

    - without any proviso, a result without error and with
      [Process = true] is produced only by the stage loop running to its
      end over all configured stages, and then every configured stage, in
      order, was reached and was either skipped because the event was
      already ahead of it, or entered with the event at that stage and
      matched by a node of that stage: the first of the nodes to match,
      called on the event that the nodes before it left. *)
Theorem Parse_stage_progress ctx now xp nodes event' err :
  Parse ctx now xp nodes = (event', err) ->
  ("" ∉ Stages ctx ->
   never_moves_back ctx nodes ->
   stage_le ctx (types.Stage xp) (types.Stage event')) /\
  (err = None -> types.Process event' = true ->
     (exists e, stages_loop ctx (Stages ctx) nodes (Parse_init ctx now xp) = StagesDone e /\
                event' = types.set_Process true e) /\
     forall pre s post, Stages ctx = pre ++ s :: post ->
       exists ek,
         stages_loop ctx pre nodes (Parse_init ctx now xp) = StagesDone ek /\
         (stageidx (types.Stage ek) (Stages ctx) > stageidx s (Stages ctx) \/
          (types.Stage ek = s /\
           exists before node after e_in e_out,
             nodes = before ++ node :: after /\
             Stage node = s /\
             nodes_loop ctx s before ek false = NodesDone e_in false /\
             types.Stage e_in = s /\
             process (profiled ctx node) e_in ctx {[ "evt" := e_in ]}
               = (e_out, (true, None))))).
Proof.
  intros HParse. unfold Parse in HParse. split.
  - intros Hempty Hback.
    pose proof (Parse_init_stage_le ctx now xp Hempty) as Hinit.
    pose proof (stages_loop_stage_le ctx (Stages ctx) nodes (Parse_init ctx now xp)
                  Hback (fun _ H => H)) as Hloop.
    destruct (stages_loop ctx (Stages ctx) nodes (Parse_init ctx now xp)) as [e er|e];
      inversion HParse; subst; simpl; eapply stage_le_trans; eauto.
  - intros -> Htrue.
    destruct (stages_loop ctx (Stages ctx) nodes (Parse_init ctx now xp)) as [e er|e] eqn:Hloop.
    + exfalso. inversion HParse; subst. clear HParse.
      revert Hloop Htrue. generalize (Parse_init ctx now xp) as e0.
      induction (Stages ctx) as [|s rest IH] in |- *; intros e0 Hloop Htrue; simpl in Hloop.
      * done.
      * destruct (decide (_ > _)); [by eapply IH|].
        destruct (decide (types.Stage e0 <> s)).
        { inversion Hloop; subst. simpl in Htrue. done. }
        destruct (nodes_loop ctx s nodes e0 false) as [e1 ok|e1 er1]; [|done].
        destruct ok; simpl in Hloop; [by eapply IH|].
        inversion Hloop; subst. simpl in Htrue. done.
    + inversion HParse; subst. split; [by exists e|].
      intros pre s post Hsplit. rewrite Hsplit in Hloop.
      destruct (stages_loop_done_at _ _ _ _ _ _ _ Hloop) as (ek & Hpre & Hcase).
      exists ek. split; [done|].
      destruct Hcase as [?|[Hst [e1 Hnodes]]]; [by left|]. right. split; [done|].
      exact (nodes_loop_first_match _ _ _ _ _ Hst Hnodes).
Qed.

(** C2.  Suppose the stage loop reaches the configured stage [s] with the
    event [ek], and [ek] is not ahead of [s].  If [ek] is not at [s] either
    (it is behind), [Parse] returns it with [Process = false] and no error.
    If [ek] is at [s] and the nodes of [s] leave [isStageOK] false, in
    particular when none of the nodes of [s] ever matches and none fails,
    [Parse] returns with [Process = false] and no error.  If a node
    fails, the node loop stops at that node, and [Parse] returns the
    event as it is then together with that error. *)
Theorem Parse_stage_failure ctx now xp nodes pre s post ek :
  Stages ctx = pre ++ s :: post ->
  stages_loop ctx pre nodes (Parse_init ctx now xp) = StagesDone ek ->
  ~ stageidx (types.Stage ek) (Stages ctx) > stageidx s (Stages ctx) ->
  (types.Stage ek <> s ->
     Parse ctx now xp nodes = (types.set_Process false ek, None)) /\
  (types.Stage ek = s -> forall e1,
     nodes_loop ctx s nodes ek false = NodesDone e1 false ->
     Parse ctx now xp nodes = (types.set_Process false e1, None)) /\
  (types.Stage ek = s ->
     (forall node e env, node ∈ nodes -> Stage node = s ->
        (process (profiled ctx node) e ctx env).2 = (false, None)) ->
     exists e1, Parse ctx now xp nodes = (e1, None) /\ types.Process e1 = false) /\
  (types.Stage ek = s -> forall e1 err,
     nodes_loop ctx s nodes ek false = NodesError e1 err ->
     Parse ctx now xp nodes = (e1, Some err)) /\
  (forall node rest e ok e1 ret err,
     types.Stage e = Stage node ->
     process (profiled ctx node) e ctx {[ "evt" := e ]} = (e1, (ret, Some err)) ->
     nodes_loop ctx s (node :: rest) e ok = NodesError e1 err).
Proof.
  intros Hsplit Hreach Hnotahead.
  assert (Hparse : Parse ctx now xp nodes =
            match stages_loop ctx (s :: post) nodes ek with
            | StagesReturn event err => (event, err)
            | StagesDone event => (types.set_Process true event, None)
            end).
  { unfold Parse. rewrite Hsplit at 1. by rewrite stages_loop_app, Hreach. }
  simpl in Hparse.
  destruct (decide (_ > _)) as [|_] in Hparse; [done|].
  repeat split.
  - intros Hne. by destruct (decide (types.Stage ek <> s)) in Hparse.
  - intros Heq e1 Hnodes.
    destruct (decide (types.Stage ek <> s)) in Hparse; [done|].
    by rewrite Hnodes in Hparse.
  - intros Heq Hnone.
    destruct (decide (types.Stage ek <> s)) in Hparse; [done|].
    assert (Hret : forall node e env, node ∈ nodes -> Stage node = s ->
              (process (profiled ctx node) e ctx env).2.1 = false).
    { intros nd e env Hin Hs. by rewrite (Hnone nd e env Hin Hs). }
    pose proof (nodes_loop_no_match ctx s nodes ek false Hret Heq) as Hok.
    destruct (nodes_loop ctx s nodes ek false) as [e1 ok|e1 er] eqn:Hnodes.
    + subst ok. by exists (types.set_Process false e1).
    + exfalso.
      destruct (nodes_loop_error_origin _ _ _ _ _ _ _ Heq Hnodes)
        as (nd & ei & r & Hin & Hs & _ & Hp).
      specialize (Hnone nd ei {[ "evt" := ei ]} Hin Hs).
      rewrite Hp in Hnone. simpl in Hnone. congruence.
  - intros Heq e1 err Hnodes.
    destruct (decide (types.Stage ek <> s)) in Hparse; [done|].
    by rewrite Hnodes in Hparse.
  - intros node rest e ok e1 ret err Hst Hp. simpl.
    destruct (decide (types.Stage e <> Stage node)); [done|].
    fold (profiled ctx node). by rewrite Hp.
Qed.

(** C10.  An event whose stage is not empty and is none of the configured
    stages has order index [-1]; with at least one stage configured,
    [Parse] returns it, initialised and with [Process = false], without
    error.  The result mentions neither [process] nor the nodes: no node
    is invoked. *)
Theorem Parse_unknown_stage ctx now xp nodes :
  types.Stage xp <> "" ->
  types.Stage xp ∉ Stages ctx ->
  Stages ctx <> [] ->
  stageidx (types.Stage xp) (Stages ctx) = -1 /\
  Parse ctx now xp nodes = (types.set_Process false (Parse_init ctx now xp), None).
Proof.
  intros Hne Hunknown Hstages.
  assert (Hidx : stageidx (types.Stage xp) (Stages ctx) = -1)
    by by apply stageidx_from_absent.
  split; [done|].
  assert (HS : types.Stage (Parse_init ctx now xp) = types.Stage xp).
  { rewrite Parse_init_Stage. destruct (Stages ctx); [done|].
    by destruct (decide (types.Stage xp = "")). }
  unfold Parse. generalize dependent (Parse_init ctx now xp). intros e0 HS.
  destruct (Stages ctx) as [|first rest] eqn:Hst; [done|].
  cbn [stages_loop]. rewrite HS, Hst, Hidx, stageidx_head.
  destruct (decide (-1 > 0)); [lia|].
  destruct (decide (types.Stage xp <> first)) as [|Heq]; [done|].
  apply dec_stable in Heq. exfalso. apply Hunknown. rewrite Heq. apply in_here.
Qed.

End Runtime.

(** ** [ProcessStatics] *)

Definition printStaticTarget (static : ExtraField) : string :=
  if decide (Method static <> "") then Method static
  else if decide (Parsed static <> "") then ".Parsed[" +:+ Parsed static +:+ "]"
  else if decide (Meta static <> "") then ".Meta[" +:+ Meta static +:+ "]"
  else if decide (Enriched static <> "") then ".Enriched[" +:+ Enriched static +:+ "]"
  else if decide (TargetByName static <> "") then TargetByName static
  else "?".

(** [strconv.Itoa]. *)
Definition Itoa (z : Z) : string := pretty z.

(** What the first part of the loop body leaves in [value], or how it
    leaves the iteration. *)
Inductive Resolved :=
| RValue (value : string)
| RContinue
| RReturn (err : error).

(** How one iteration of the loop over the statics ends. *)
Inductive Control :=
| Continue (event : types.Event) (clog : log.Log)
| Return_ (err : error) (event : types.Event) (clog : log.Log)
| Exit (clog : log.Log)
| Panic.

(** How [ProcessStatics] ends: it returns, or the process exits in
    [clog.Fatal], or it panics on an assignment to a [nil] map. *)
Inductive Outcome :=
| Returned (err : option error) (event : types.Event) (clog : log.Log)
| Exited (clog : log.Log)
| Panicked.

Section Statics.

(** [fmt.Sprintf("%f", out)] for a [float64] or [float32]. *)
Variable Sprintf_f : any -> string.

(** The reflective assignment [SetTargetByName(target, value, evt)]: it
    answers whether it could set the target and leaves the event updated.
    The properties below hold whatever it does. *)
Variable SetTargetByName : string -> string -> types.Event -> bool * types.Event.

(** From [value = ""] to the end of the type switch. *)
Definition resolve_value (static : ExtraField) (event : types.Event) (clog : log.Log)
    : Resolved * log.Log :=
  if decide (Value static <> "") then (RValue (Value static), clog)
  else
    match RunTimeValue static with
    | None => (RValue "", clog)
    | Some prog =>
        let '(output, err) := Run prog {[ "evt" := event ]} in
        match err with
        | Some err =>
            (RContinue, log.emit log.Warning "failed to run RunTimeValue : %v" [log.AStr err] clog)
        | None =>
            match output with
            | VString out => (RValue out, clog)
            | VInt out => (RValue (Itoa out), clog)
            | VFloat64 _ | VFloat32 _ => (RValue (Sprintf_f output), clog)
            | VMapStringAny _ =>
                (RValue "",
                 log.emit log.Warning
                   "Expression '%s' returned a map, please use ToJsonString() to convert it to string if you want to keep it as is, or refine your expression to extract a string"
                   [log.AStr (ExpValue static)] clog)
            | VSliceAny _ =>
                (RValue "",
                 log.emit log.Warning
                   "Expression '%s' returned an array, please use ToJsonString() to convert it to string if you want to keep it as is, or refine your expression to extract a string"
                   [log.AStr (ExpValue static)] clog)
            | VNil =>
                (RValue "",
                 log.emit log.Debug "Expression '%s' returned nil, skipping"
                   [log.AStr (ExpValue static)] clog)
            | _ =>
                (RReturn "unexpected return type for RunTimeValue",
                 log.emit log.Error "unexpected return type for '%s' : %T"
                   [log.AStr (ExpValue static); log.AAny output] clog)
            end
        end
    end.

(** [m[k] = v] on a map that may be [nil]: [None] is the panic. *)
Definition map_assign (m : option (gmap string string)) (k v : string)
    : option (option (gmap string string)) :=
  match m with
  | None => None
  | Some m => Some (Some (<[k := v]> m))
  end.

(** [for k, v := range ret { ...; event.Enriched[k] = v }].  Go ranges
    over a map in an unspecified order; the entries are logged in the
    order of [map_to_list]. *)
Definition merge_enriched (ret : gmap string string) (event : types.Event)
    (clog : log.Log) : Control :=
  let clog :=
    foldl (fun l kv => log.emit log.Debug "\t.Enriched[%s] = '%s'\n" [log.AStr kv.1; log.AStr kv.2] l)
      clog (map_to_list ret) in
  if decide (ret = ∅) then Continue event clog
  else
    match types.Enriched event with
    | None => Panic
    | Some m => Continue (types.set_Enriched (Some (ret ∪ m)) event) clog
    end.

(** The dispatch on the target, from [if static.Method != ""] on. *)
Definition assign_target (n : Node) (static : ExtraField) (value : string)
    (event : types.Event) (clog : log.Log) : Control :=
  if decide (Method static <> "") then
    match Registered (EnrichFunctions n) !! Method static with
    | Some enrichFunc =>
        let clog := log.emit log.Trace "Found method '%s'" [log.AStr (Method static)] clog in
        let '(event, (ret, err)) := enrichFunc value event in
        let clog :=
          match err with
          | Some err =>
              log.emit log.Error "method '%s' returned an error : %v" [log.AStr (Method static); log.AStr err] clog
          | None => clog
          end in
        let clog :=
          log.emit log.Debug "+ Method %s('%s') returned %d entries to merge in .Enriched\n"
            [log.AStr (Method static); log.AStr value; log.AInt (Z.of_nat (size ret))] clog in
        let clog :=
          if decide (size ret = 0%nat /\ Method static <> "UnmarshalJSON")
          then log.emit log.Debug "+ Method '%s' empty response on '%s'" [log.AStr (Method static); log.AStr value] clog
          else clog in
        merge_enriched ret event clog
    | None =>
        let clog :=
          log.emit log.Debug "method '%s' doesn't exist or plugin not initialized"
            [log.AStr (Method static)] clog in
        Continue event (log.emit log.Debug "method '%s' doesn't exist" [log.AStr (Method static)] clog)
    end
  else if decide (Parsed static <> "") then
    let clog := log.emit log.Debug ".Parsed[%s] = '%s'" [log.AStr (Parsed static); log.AStr value] clog in
    match map_assign (types.Parsed event) (Parsed static) value with
    | Some m => Continue (types.set_Parsed m event) clog
    | None => Panic
    end
  else if decide (Meta static <> "") then
    let clog := log.emit log.Debug ".Meta[%s] = '%s'" [log.AStr (Meta static); log.AStr value] clog in
    match map_assign (types.Meta event) (Meta static) value with
    | Some m => Continue (types.set_Meta m event) clog
    | None => Panic
    end
  else if decide (Enriched static <> "") then
    let clog := log.emit log.Debug ".Enriched[%s] = '%s'" [log.AStr (Enriched static); log.AStr value] clog in
    match map_assign (types.Enriched event) (Enriched static) value with
    | Some m => Continue (types.set_Enriched m event) clog
    | None => Panic
    end
  else if decide (TargetByName static <> "") then
    let '(ok, event) := SetTargetByName (TargetByName static) value event in
    if negb ok
    then Continue event (log.emit log.Error "Unable to set value of '%s'" [log.AStr (TargetByName static)] clog)
    else Continue event (log.emit log.Debug "%s = '%s'" [log.AStr (TargetByName static); log.AStr value] clog)
  else Exit (log.emit log.Fatal "unable to process static : unknown target" [] clog).

(** From [if value == ""] to the end of the loop body. *)
Definition use_value (n : Node) (static : ExtraField) (value : string)
    (event : types.Event) (clog : log.Log) : Control :=
  if decide (value = "" /\ Method static <> "ParseDate") then
    (* allow ParseDate to have empty input *)
    Continue event
      (log.emit log.Debug "Empty value for %s, skip." [log.AStr (printStaticTarget static)] clog)
  else assign_target n static value event clog.

(** One iteration of [for _, static := range statics]. *)
Definition static_step (n : Node) (static : ExtraField) (event : types.Event)
    (clog : log.Log) : Control :=
  match resolve_value static event clog with
  | (RContinue, clog) => Continue event clog
  | (RReturn err, clog) => Return_ err event clog
  | (RValue value, clog) => use_value n static value event clog
  end.

Fixpoint ProcessStatics (n : Node) (statics : list ExtraField) (event : types.Event)
    (clog : log.Log) : Outcome :=
  match statics with
  | [] => Returned None event clog
  | static :: rest =>
      match static_step n static event clog with
      | Continue event clog => ProcessStatics n rest event clog
      | Return_ err event clog => Returned (Some err) event clog
      | Exit clog => Exited clog
      | Panic => Panicked
      end
  end.

(** *** The properties of [ProcessStatics] *)

Lemma set_Enriched_same event m :
  types.Enriched event = Some m -> types.set_Enriched (Some m) event = event.
Proof. destruct event; simpl; by intros ->. Qed.

(** C7.  A directive whose resolved value is empty and whose method is
    not ["ParseDate"] is skipped: the event is handed unchanged to the
    remaining directives.  With method ["ParseDate"] the directive is
    carried out on the empty value: a registered [ParseDate] enricher is
    called on [""] and the event it leaves, with every entry it answers
    written over [Enriched], is what the remaining directives get (a
    panic if it answers entries while [Enriched] is [nil]); if no
    [ParseDate] enricher is registered there is nothing to carry out and
    the event goes on unchanged. *)
Theorem ProcessStatics_empty_value n static rest event clog clog1 :
  resolve_value static event clog = (RValue "", clog1) ->
  (Method static <> "ParseDate" ->
     let skipped :=
       log.emit log.Debug "Empty value for %s, skip." [log.AStr (printStaticTarget static)] clog1 in
     static_step n static event clog = Continue event skipped /\
     ProcessStatics n (static :: rest) event clog = ProcessStatics n rest event skipped) /\
  (Method static = "ParseDate" ->
     static_step n static event clog = assign_target n static "" event clog1 /\
     (Registered (EnrichFunctions n) !! "ParseDate" = None ->
        exists clog2,
          ProcessStatics n (static :: rest) event clog = ProcessStatics n rest event clog2) /\
     forall enrichFunc event1 ret err,
       Registered (EnrichFunctions n) !! "ParseDate" = Some enrichFunc ->
       enrichFunc "" event = (event1, (ret, err)) ->
       (exists clog2, static_step n static event clog = merge_enriched ret event1 clog2) /\
       match types.Enriched event1 with
       | Some m =>
           exists clog3,
             static_step n static event clog
             = Continue (types.set_Enriched (Some (ret ∪ m)) event1) clog3 /\
             ProcessStatics n (static :: rest) event clog
             = ProcessStatics n rest (types.set_Enriched (Some (ret ∪ m)) event1) clog3
       | None =>
           (ret = ∅ ->
              exists clog3,
                ProcessStatics n (static :: rest) event clog
                = ProcessStatics n rest event1 clog3) /\
           (ret <> ∅ -> ProcessStatics n (static :: rest) event clog = Panicked)
       end).
Proof.
  intros Hres. split.
  - intros Hm skipped.
    assert (Hstep : static_step n static event clog = Continue event skipped).
    { unfold static_step, use_value. rewrite Hres.
      destruct (decide ("" = "" /\ Method static <> "ParseDate")) as [|Hno]; [done|].
      exfalso. by apply Hno. }
    split; [done|]. simpl. by rewrite Hstep.
  - intros Hm.
    assert (Hstep : static_step n static event clog = assign_target n static "" event clog1).
    { unfold static_step, use_value. rewrite Hres.
      destruct (decide ("" = "" /\ Method static <> "ParseDate")) as [[_ Hno]|]; done. }
    split; [done|]. split.
    + intros Hreg.
      assert (Hnone : exists clog2, static_step n static event clog = Continue event clog2).
      { rewrite Hstep. unfold assign_target. rewrite Hm.
        destruct (decide ("ParseDate" <> "")) as [_|Hx]; [|by destruct Hx].
        eexists. unfold EnrichFunc in *. rewrite Hreg. reflexivity. }
      destruct Hnone as [clog2 Hnone]. exists clog2.
      cbn [ProcessStatics]. by rewrite Hnone.
    + intros enrichFunc event1 ret err Hreg Hcall.
      assert (Hmerge : exists clog2,
                static_step n static event clog = merge_enriched ret event1 clog2).
      { rewrite Hstep. unfold assign_target. rewrite Hm.
        destruct (decide ("ParseDate" <> "")) as [_|Hx]; [|by destruct Hx].
        eexists. rewrite Hreg, Hcall. reflexivity. }
      split; [exact Hmerge|]. destruct Hmerge as [clog2 Hmerge].
      cbn [ProcessStatics]. rewrite Hmerge. unfold merge_enriched.
      destruct (types.Enriched event1) as [m|] eqn:Henr.
      * destruct (decide (ret = ∅)) as [->|Hne].
        -- rewrite (left_id_L ∅ (∪) m), (set_Enriched_same _ _ Henr). eauto.
        -- eauto.
      * split; intros Hret; destruct (decide (ret = ∅)); try done. eauto.
Qed.

(** C8 (as amended).  For a directive without literal value whose
    expression runs without error: a string is the value as it is, an
    [int] is the value in decimal, a float is the value formatted with
    [%f]; a [map[string]any] or [[]any] leaves the value empty and is
    logged as a warning, [nil] leaves it empty and is logged at debug
    level only; in these three cases the directive is skipped with the
    event unchanged unless its method is ["ParseDate"], which then runs
    on the empty value.  Any other dynamic type makes [ProcessStatics] log
    an error and return ["unexpected return type for RunTimeValue"] with
    the event as it is, the remaining directives not being run. *)
Theorem ProcessStatics_expression_result n static rest event clog prog output :
  Value static = "" ->
  RunTimeValue static = Some prog ->
  Run prog {[ "evt" := event ]} = (output, None) ->
  let skipped l :=
    log.emit log.Debug "Empty value for %s, skip." [log.AStr (printStaticTarget static)] l in
  match output with
  | VString out =>
      static_step n static event clog = use_value n static out event clog
  | VInt z =>
      static_step n static event clog = use_value n static (Itoa z) event clog
  | VFloat64 _ | VFloat32 _ =>
      static_step n static event clog = use_value n static (Sprintf_f output) event clog
  | VMapStringAny _ | VSliceAny _ =>
      exists entry, log.level entry = log.Warning /\
        static_step n static event clog = use_value n static "" event (clog ++ [entry]) /\
        (Method static <> "ParseDate" ->
           ProcessStatics n (static :: rest) event clog
           = ProcessStatics n rest event (skipped (clog ++ [entry]))) /\
        (Method static = "ParseDate" ->
           static_step n static event clog
           = assign_target n static "" event (clog ++ [entry]))
  | VNil =>
      exists entry, log.level entry = log.Debug /\
        static_step n static event clog = use_value n static "" event (clog ++ [entry]) /\
        (Method static <> "ParseDate" ->
           ProcessStatics n (static :: rest) event clog
           = ProcessStatics n rest event (skipped (clog ++ [entry]))) /\
        (Method static = "ParseDate" ->
           static_step n static event clog
           = assign_target n static "" event (clog ++ [entry]))
  | VBool _ | VOther _ =>
      exists entry, log.level entry = log.Error /\
        ProcessStatics n (static :: rest) event clog
        = Returned (Some "unexpected return type for RunTimeValue") event (clog ++ [entry])
  end.
Proof.
  intros Hval Hprog Hrun skipped.
  assert (Hres : resolve_value static event clog =
                 let '(output, err) := Run prog {[ "evt" := event ]} in
                 resolve_value static event clog).
  { by destruct (Run prog {[ "evt" := event ]}). }
  assert (Hempty : forall l,
            use_value n static "" event l =
            if decide (Method static <> "ParseDate")
            then Continue event (skipped l)
            else assign_target n static "" event l).
  { intros l. unfold use_value.
    destruct (decide ("" = "" /\ Method static <> "ParseDate")) as [[_ H]|H];
      destruct (decide (Method static <> "ParseDate")) as [H'|H']; try done.
    exfalso. by apply H. }
  unfold static_step, resolve_value. rewrite Hval, Hprog.
  destruct (decide ("" <> "")) as [|_]; [done|]. rewrite Hrun.
  destruct output; try done.
  - (* nil *)
    eexists. split; [|split; [reflexivity|]]; [reflexivity|].
    split; intros Hm.
    + cbn [ProcessStatics]. unfold static_step, resolve_value.
      rewrite Hval, Hprog. destruct (decide ("" <> "")) as [|_]; [done|]. rewrite Hrun.
      unfold log.emit. rewrite Hempty. by destruct (decide (Method static <> "ParseDate")).
    + unfold log.emit. rewrite Hempty.
      destruct (decide (Method static <> "ParseDate")); done.
  - (* bool *)
    eexists. split; [|cbn [ProcessStatics]; unfold static_step, resolve_value;
      rewrite Hval, Hprog; destruct (decide ("" <> "")) as [|_]; [done|]; rewrite Hrun;
      reflexivity]. reflexivity.
  - (* map *)
    eexists. split; [|split; [reflexivity|]]; [reflexivity|].
    split; intros Hm.
    + cbn [ProcessStatics]. unfold static_step, resolve_value.
      rewrite Hval, Hprog. destruct (decide ("" <> "")) as [|_]; [done|]. rewrite Hrun.
      unfold log.emit. rewrite Hempty. by destruct (decide (Method static <> "ParseDate")).
    + unfold log.emit. rewrite Hempty.
      destruct (decide (Method static <> "ParseDate")); done.
  - (* slice *)
    eexists. split; [|split; [reflexivity|]]; [reflexivity|].
    split; intros Hm.
    + cbn [ProcessStatics]. unfold static_step, resolve_value.
      rewrite Hval, Hprog. destruct (decide ("" <> "")) as [|_]; [done|]. rewrite Hrun.
      unfold log.emit. rewrite Hempty. by destruct (decide (Method static <> "ParseDate")).
    + unfold log.emit. rewrite Hempty.
      destruct (decide (Method static <> "ParseDate")); done.
  - (* any other type *)
    eexists. split; [|cbn [ProcessStatics]; unfold static_step, resolve_value;
      rewrite Hval, Hprog; destruct (decide ("" <> "")) as [|_]; [done|]; rewrite Hrun;
      reflexivity]. reflexivity.
Qed.

End Statics.

(** ** [CheckExprWL] *)

(** The two counter vectors of [pkg/metrics] that the whitelist checks
    increment, keyed by their labels in the order they are written. *)
Abbreviation Labels := (list (string * string)).

Record Metrics := mkMetrics {
  NodesWlHits : gmap Labels nat;
  NodesWlHitsOk : gmap Labels nat
}.

(** [vec.With(labels).Inc()]. *)
Definition Inc (labels : Labels) (vec : gmap Labels nat) : gmap Labels nat :=
  <[labels := S (default 0%nat (vec !! labels))]> vec.

Definition wl_labels (n : Node) (p : types.Event) : Labels :=
  [("source", types.Src (types.Line_ p));
   ("type", types.Module_ (types.Line_ p));
   ("name", Name n);
   ("reason", Reason (Whitelist_ n));
   ("stage", types.Stage p);
   ("acquis_type", default "" (types.Labels (types.Line_ p) !! "type"))].

Definition ContainsExprLists (n : Node) : bool :=
  bool_decide (0 < length (B_Exprs (Whitelist_ n)))%nat.

(** How the loop over the compiled expressions ends: by running out of
    expressions or [break], by [return isWhitelisted, err], or by the
    panic of [n.Whitelist.Exprs[eidx]] out of range. *)
Inductive ExprsResult :=
| ExprsDone (isWhitelisted : bool) (logger : log.Log)
| ExprsReturn (isWhitelisted : bool) (err : error) (logger : log.Log)
| ExprsPanic.

(** [for eidx, e := range n.Whitelist.B_Exprs { ... }], entered at index
    [eidx]. *)
Fixpoint exprs_loop (n : Node) (cachedExprEnv : ExprEnv) (eidx : nat)
    (exprs : list ExprWhitelist) (isWhitelisted : bool) (logger : log.Log)
    : ExprsResult :=
  match exprs with
  | [] => ExprsDone isWhitelisted logger
  | e :: rest =>
      (* if we already know the event is whitelisted, skip the rest of the expressions *)
      if isWhitelisted then ExprsDone isWhitelisted logger
      else
        let '(output, err) := Run (Filter e) cachedExprEnv in
        match err with
        | Some err =>
            let logger :=
              log.emit log.Warning "failed to run whitelist expr : %v" [log.AStr err] logger in
            let logger := log.emit log.Debug "Event leaving node : ko" [] logger in
            ExprsReturn isWhitelisted err logger
        | None =>
            match output with
            | VBool out =>
                if out then
                  exprs_loop n cachedExprEnv (S eidx) rest true
                    (log.emit log.Debug "Event is whitelisted by expr, reason [%s]"
                       [log.AStr (Reason (Whitelist_ n))] logger)
                else exprs_loop n cachedExprEnv (S eidx) rest isWhitelisted logger
            | _ =>
                match Exprs (Whitelist_ n) !! eidx with
                | None => ExprsPanic
                | Some source =>
                    exprs_loop n cachedExprEnv (S eidx) rest isWhitelisted
                      (log.emit log.Error "unexpected type %t (%v) while running '%s'"
                         [log.AAny output; log.AAny output; log.AStr source] logger)
                end
            end
        end
  end.

(** How [CheckExprWL] ends. *)
Inductive CheckResult :=
| Checked (isWhitelisted : bool) (err : option error) (metrics : Metrics) (logger : log.Log)
| CheckPanicked.

Definition CheckExprWL (n : Node) (cachedExprEnv : ExprEnv) (p : types.Event)
    (metrics : Metrics) (logger : log.Log) : CheckResult :=
  let isWhitelisted := false in
  if negb (ContainsExprLists n) then Checked false None metrics logger
  else
    let metrics :=
      mkMetrics (Inc (wl_labels n p) (NodesWlHits metrics)) (NodesWlHitsOk metrics) in
    (* run whitelist expression tests anyway *)
    match exprs_loop n cachedExprEnv 0 (B_Exprs (Whitelist_ n)) isWhitelisted logger with
    | ExprsPanic => CheckPanicked
    | ExprsReturn isWhitelisted err logger => Checked isWhitelisted (Some err) metrics logger
    | ExprsDone isWhitelisted logger =>
        let metrics :=
          if isWhitelisted
          then mkMetrics (NodesWlHits metrics) (Inc (wl_labels n p) (NodesWlHitsOk metrics))
          else metrics in
        Checked isWhitelisted None metrics logger
    end.

(** *** The properties of [CheckExprWL] *)

(** The expression runs without error and does not answer [true]. *)
Definition quiet (env : ExprEnv) (e : ExprWhitelist) : Prop :=
  exists out, Run (Filter e) env = (out, None) /\ out <> VBool true.

(** The expression runs without error and answers something that is not
    a [bool]. *)
Definition non_bool (env : ExprEnv) (e : ExprWhitelist) : bool :=
  match Run (Filter e) env with
  | (VBool _, None) => false
  | (_, None) => true
  | (_, Some _) => false
  end.

Lemma at_level_emit lv lv' fmt a l :
  log.at_level lv (log.emit lv' fmt a l) =
  log.at_level lv l ++ (if decide (lv' = lv) then [log.mkEntry lv' fmt a] else []).
Proof.
  unfold log.at_level, log.emit. rewrite filter_app. reflexivity.
Qed.

Lemma exprs_loop_whitelisted n env eidx exprs logger :
  exprs_loop n env eidx exprs true logger = ExprsDone true logger.
Proof. by destruct exprs. Qed.

(** Over a prefix of quiet expressions the loop only logs: one entry at
    level [Error] for each expression that is not boolean. *)
Lemma exprs_loop_quiet n env eidx pre rest logger :
  Forall (quiet env) pre ->
  (eidx + length pre <= length (Exprs (Whitelist_ n)))%nat ->
  exists logger',
    exprs_loop n env eidx (pre ++ rest) false logger
    = exprs_loop n env (eidx + length pre) rest false logger' /\
    length (log.at_level log.Error logger')
    = (length (log.at_level log.Error logger)
       + length (filter (fun e => non_bool env e = true) pre))%nat.
Proof.
  revert eidx logger. induction pre as [|e pre IH]; intros eidx logger Hq Hlen.
  - exists logger. simpl. rewrite !Nat.add_0_r. done.
  - apply Forall_cons in Hq as [(out & Hrun & Hout) Hq]. simpl in Hlen.
    assert (Hnb : non_bool env e = match out with VBool _ => false | _ => true end).
    { unfold non_bool. rewrite Hrun. by destruct out. }
    rewrite filter_cons. cbn [app exprs_loop]. rewrite Hrun.
    destruct (lookup_lt_is_Some_2 (Exprs (Whitelist_ n)) eidx) as [src Hsrc]; [lia|].
    rewrite Hsrc.
    destruct out as [| | | | |[|]| | |]; try done;
      match goal with
      | |- exists _, exprs_loop _ _ _ _ _ ?lg0 = _ /\ _ =>
          destruct (IH (S eidx) lg0 Hq) as (lg & Heq & Hcount); [lia|]
      end;
      exists lg; simpl length;
      replace (eidx + S (length pre))%nat with (S eidx + length pre)%nat by lia;
      (split; [exact Heq|]);
      rewrite Hcount, Hnb; try rewrite at_level_emit;
      repeat case_decide; try done; rewrite ?length_app; simpl; lia.
Qed.

(** C9.  For a node whose whitelist was compiled (every compiled
    expression has its source): without compiled expressions the check
    answers "not whitelisted" with no error and touches neither counter
    nor log; the expressions are run in order and the first one that
    answers [true] makes the check answer "whitelisted", the expressions
    after it not being run; an evaluation error makes the check return
    that error with the result so far, which is "not whitelisted"; an
    expression that answers a value that is not boolean is logged at level
    [Error] and counts as not matching. *)
Theorem CheckExprWL_behaviour n env p metrics logger :
  (length (B_Exprs (Whitelist_ n)) <= length (Exprs (Whitelist_ n)))%nat ->
  let hit :=
    mkMetrics (Inc (wl_labels n p) (NodesWlHits metrics)) (NodesWlHitsOk metrics) in
  let hit_ok :=
    mkMetrics (Inc (wl_labels n p) (NodesWlHits metrics))
      (Inc (wl_labels n p) (NodesWlHitsOk metrics)) in
  (B_Exprs (Whitelist_ n) = [] ->
     CheckExprWL n env p metrics logger = Checked false None metrics logger) /\
  (forall pre e post,
     B_Exprs (Whitelist_ n) = pre ++ e :: post ->
     Forall (quiet env) pre ->
     Run (Filter e) env = (VBool true, None) ->
     (exists logger', CheckExprWL n env p metrics logger = Checked true None hit_ok logger') /\
     exprs_loop n env 0 (pre ++ e :: post) false logger
     = exprs_loop n env 0 (pre ++ [e]) false logger) /\
  (forall pre e post out err,
     B_Exprs (Whitelist_ n) = pre ++ e :: post ->
     Forall (quiet env) pre ->
     Run (Filter e) env = (out, Some err) ->
     exists logger',
       CheckExprWL n env p metrics logger = Checked false (Some err) hit logger') /\
  (B_Exprs (Whitelist_ n) <> [] ->
   Forall (quiet env) (B_Exprs (Whitelist_ n)) ->
   exists logger',
     CheckExprWL n env p metrics logger = Checked false None hit logger' /\
     length (log.at_level log.Error logger')
     = (length (log.at_level log.Error logger)
        + length (filter (fun e => non_bool env e = true) (B_Exprs (Whitelist_ n))))%nat).
Proof.
  intros Hlen hit hit_ok.
  assert (Hcontains : B_Exprs (Whitelist_ n) <> [] -> ContainsExprLists n = true).
  { intros Hne. unfold ContainsExprLists. apply bool_decide_eq_true.
    destruct (B_Exprs (Whitelist_ n)); [done | simpl; lia]. }
  assert (Hbound : forall pre e post,
            B_Exprs (Whitelist_ n) = pre ++ e :: post ->
            (0 + length pre <= length (Exprs (Whitelist_ n)))%nat).
  { intros pre e post Hsplit. rewrite Hsplit, length_app in Hlen. simpl in *. lia. }
  split; [|split; [|split]].
  - intros Hnil. unfold CheckExprWL, ContainsExprLists. by rewrite Hnil.
  - intros pre e post Hsplit Hq Hrun.
    destruct (exprs_loop_quiet n env 0 pre (e :: post) logger Hq (Hbound _ _ _ Hsplit))
      as (lg & Heq & _).
    destruct (exprs_loop_quiet n env 0 pre [e] logger Hq (Hbound _ _ _ Hsplit))
      as (lg' & Heq' & _).
    split.
    + assert (Hne : B_Exprs (Whitelist_ n) <> []) by (rewrite Hsplit; by destruct pre).
      unfold CheckExprWL. rewrite (Hcontains Hne), Hsplit. simpl negb. cbv iota.
      rewrite Heq. cbn [exprs_loop]. rewrite Hrun, exprs_loop_whitelisted. eauto.
    + (* both runs log the same over [pre]: compare them step by step *)
      clear Heq Heq' lg lg' Hbound Hlen Hcontains Hq Hsplit.
      generalize 0%nat as eidx. revert logger.
      induction pre as [|x pre IH]; intros logger eidx.
      * cbn [app exprs_loop]. rewrite Hrun. by rewrite !exprs_loop_whitelisted.
      * cbn [app exprs_loop].
        destruct (Run (Filter x) env) as [out [er|]]; [done|].
        destruct out as [| | | | |[|]| | |];
          try (destruct (Exprs (Whitelist_ n) !! eidx); [|done]);
          try apply IH.
        by rewrite !exprs_loop_whitelisted.
  - intros pre e post out err Hsplit Hq Hrun.
    assert (Hne : B_Exprs (Whitelist_ n) <> []) by (rewrite Hsplit; by destruct pre).
    unfold CheckExprWL. rewrite (Hcontains Hne), Hsplit. simpl negb. cbv iota.
    destruct (exprs_loop_quiet n env 0 pre (e :: post) logger Hq (Hbound _ _ _ Hsplit))
      as (lg & Heq & _).
    rewrite Heq. cbn [exprs_loop]. rewrite Hrun. eauto.
  - intros Hne Hq. unfold CheckExprWL. rewrite (Hcontains Hne). simpl negb. cbv iota.
    destruct (exprs_loop_quiet n env 0 (B_Exprs (Whitelist_ n)) [] logger Hq)
      as (lg & Heq & Hcount); [simpl; lia|].
    rewrite app_nil_r in Heq. rewrite Heq. simpl. eauto.
Qed.


(** *** Fixtures for [ProcessStatics] *)

(** Stand-ins for the two collaborators of [ProcessStatics]. *)
Definition fixed_Sprintf_f (v : any) : string := "1.500000".
Definition refuse_SetTargetByName (target value : string) (e : types.Event)
    : bool * types.Event := (false, e).

(** A [ParseDate] that always answers one entry. *)
Definition stamp_date : EnrichFunc :=
  fun value e => (e, ({[ "MarshaledTime" := "2026-01-01T00:00:00Z" ]}, None)).

Definition enriching_node : Node :=
  mkNode "dateparse" "dateparse" "s01" "" false false (mkWhitelist "" [] [] [] [] [] []) []
    (mkEnricherCtx {[ "ParseDate" := stamp_date ]}).

(** An event as [Parse] hands it to the nodes: all maps made. *)
Definition ready_event : types.Event :=
  types.mkEvent types.LOG 0 false "" "s01" (types.mkLine "" "" ∅ "")
    (Some ∅) (Some ∅) (Some ∅) 7 "" "" "" false (Some ∅).

(** An expression that returns the map [{"city": "paris"}]. *)
Definition city_map : Program :=
  fun env => (VMapStringAny [("city", VString "paris")], None).

(** [meta: geo] and [method: ParseDate], both fed by [city_map]. *)
Definition geo_static : ExtraField :=
  mkExtraField "" "" "" "geo" "" "GeoIPCity(evt.Meta.source_ip)" (Some city_map) "".
Definition date_static : ExtraField :=
  mkExtraField "" "" "" "" "" "GeoIPCity(evt.Meta.source_ip)" (Some city_map) "ParseDate".

(** [meta: geo] and [method: ParseDate] with nothing to evaluate. *)
Definition empty_meta_static : ExtraField := mkExtraField "" "" "" "geo" "" "" None "".
Definition empty_date_static : ExtraField := mkExtraField "" "" "" "" "" "" None "ParseDate".

Example ProcessStatics_scenario_D :
  exists clog,
    ProcessStatics fixed_Sprintf_f refuse_SetTargetByName enriching_node [geo_static]
      ready_event [] = Returned None ready_event clog /\
    types.Meta ready_event = Some ∅ /\
    log.level <$> clog = [log.Warning; log.Debug].
Proof. eexists. split; [reflexivity|]. by split. Qed.

Lemma ProcessStatics_empty_value_witness :
  ProcessStatics fixed_Sprintf_f refuse_SetTargetByName enriching_node
    [empty_meta_static] ready_event []
  = Returned None ready_event
      [log.mkEntry log.Debug "Empty value for %s, skip." [log.AStr ".Meta[geo]"]] /\
  types.Enriched ready_event = Some ∅ /\
  exists event' clog,
    ProcessStatics fixed_Sprintf_f refuse_SetTargetByName enriching_node
      [empty_date_static] ready_event []
    = Returned None event' clog /\
    types.Enriched event' = Some {[ "MarshaledTime" := "2026-01-01T00:00:00Z" ]}.
Proof.
  split; [|split; [reflexivity|]].
  - destruct (ProcessStatics_empty_value fixed_Sprintf_f refuse_SetTargetByName
                enriching_node empty_meta_static [] ready_event [] [] eq_refl)
      as [Hskip _].
    destruct Hskip as [_ Hrun]; [discriminate|]. rewrite Hrun. reflexivity.
  - destruct (ProcessStatics_empty_value fixed_Sprintf_f refuse_SetTargetByName
                enriching_node empty_date_static [] ready_event [] [] eq_refl)
      as [_ Hdate].
    destruct Hdate as (_ & _ & Hcall); [reflexivity|].
    destruct (Hcall stamp_date ready_event _ None eq_refl eq_refl) as [_ Hevent].
    cbn [ready_event types.Enriched] in Hevent.
    destruct Hevent as (clog3 & _ & Hrun).
    eexists _, clog3. split; [exact Hrun|]. vm_compute. reflexivity.
Defined.

Lemma ProcessStatics_expression_result_witness :
  exists entry, log.level entry = log.Warning /\
    ProcessStatics fixed_Sprintf_f refuse_SetTargetByName enriching_node
      [geo_static] ready_event []
    = Returned None ready_event
        [entry; log.mkEntry log.Debug "Empty value for %s, skip." [log.AStr ".Meta[geo]"]].
Proof.
  pose proof (ProcessStatics_expression_result fixed_Sprintf_f refuse_SetTargetByName
                enriching_node geo_static [] ready_event [] city_map
                (VMapStringAny [("city", VString "paris")])
                eq_refl eq_refl eq_refl) as H.
  cbv beta iota zeta in H.
  destruct H as (entry & Hlevel & _ & Hskip & _).
  exists entry. split; [exact Hlevel|]. rewrite Hskip; [reflexivity | discriminate].
Defined.

(** C8, as stated, fails for the method [ParseDate]: there a directive
    whose expression returns a map is not skipped, the enricher runs on
    the empty value and the event is updated. *)
Lemma ProcessStatics_map_claim_counterexample :
  Run city_map {[ "evt" := ready_event ]}
    = (VMapStringAny [("city", VString "paris")], None) /\
  exists event' clog,
    ProcessStatics fixed_Sprintf_f refuse_SetTargetByName enriching_node
      [date_static] ready_event [] = Returned None event' clog /\
    types.Enriched event' = Some {[ "MarshaledTime" := "2026-01-01T00:00:00Z" ]} /\
    event' <> ready_event.
Proof.
  split; [reflexivity|].
  eexists _, _. split; [vm_compute; reflexivity|]. split; [reflexivity|].
  intros H.
  apply (f_equal (fun e => types.Enriched e ≫= (.!! "MarshaledTime"))) in H.
  vm_compute in H. discriminate.
Qed.

(** *** Fixtures for [CheckExprWL] *)

Definition answers (v : any) : ExprWhitelist := mkExprWhitelist (fun env => (v, None)).
Definition breaks (err : error) : ExprWhitelist :=
  mkExprWhitelist (fun env => (VNil, Some err)).

(** A node with three compiled whitelist expressions. *)
Definition whitelist_node (compiled : list ExprWhitelist) : Node :=
  mkNode "wl" "wl" "s01" "" false false
    (mkWhitelist "trusted" [] [] [] []
       ["evt.Parsed.user"; "evt.Meta.ok == 'yes'"; "Atof(evt.Meta.n) > 1"] compiled)
    [] (mkEnricherCtx ∅).

Definition no_metrics : Metrics := mkMetrics ∅ ∅.

Lemma CheckExprWL_behaviour_witness :
  (exists logger',
     CheckExprWL
       (whitelist_node [answers (VString "bob"); answers (VBool true); breaks "boom"])
       {[ "evt" := ready_event ]} ready_event no_metrics []
     = Checked true None
         (mkMetrics
            (Inc (wl_labels (whitelist_node []) ready_event) ∅)
            (Inc (wl_labels (whitelist_node []) ready_event) ∅))
         logger') /\
  (exists logger',
     CheckExprWL
       (whitelist_node [answers (VString "bob"); breaks "boom"; answers (VBool true)])
       {[ "evt" := ready_event ]} ready_event no_metrics []
     = Checked false (Some "boom")
         (mkMetrics (Inc (wl_labels (whitelist_node []) ready_event) ∅) ∅)
         logger').
Proof.
  assert (Hquiet : Forall (quiet {[ "evt" := ready_event ]}) [answers (VString "bob")]).
  { constructor; [|constructor].
    exists (VString "bob"). split; [reflexivity | discriminate]. }
  split.
  - pose (n := whitelist_node [answers (VString "bob"); answers (VBool true); breaks "boom"]).
    destruct (CheckExprWL_behaviour n {[ "evt" := ready_event ]} ready_event no_metrics [])
      as (_ & Hfirst & _); [simpl; lia|].
    destruct (Hfirst [answers (VString "bob")] (answers (VBool true)) [breaks "boom"]
                eq_refl Hquiet eq_refl) as [Hcheck _].
    exact Hcheck.
  - pose (n := whitelist_node [answers (VString "bob"); breaks "boom"; answers (VBool true)]).
    destruct (CheckExprWL_behaviour n {[ "evt" := ready_event ]} ready_event no_metrics [])
      as (_ & _ & Herr & _); [simpl; lia|].
    exact (Herr [answers (VString "bob")] (breaks "boom") [answers (VBool true)]
             VNil "boom" eq_refl Hquiet eq_refl).
Defined.

(** *** Fixtures for [Parse] *)

Definition blank_line : types.Line := types.mkLine "" "" ∅ "".

(** A log event, not yet initialised, at the given stage. *)
Definition blank_event (stage : string) : types.Event :=
  types.mkEvent types.LOG 0 false "" stage blank_line None None None 0 "" "" "" false None.

Definition plain_node (name stage onsuccess : string) : Node :=
  mkNode name name stage onsuccess false false (mkWhitelist "" [] [] [] [] [] []) []
    (mkEnricherCtx ∅).

Definition two_stages : UnixParserCtx := mkCtx ["s00"; "s01"] false.

(** Every node matches; a node with [onsuccess: next_stage] moves an
    event from [s00] to [s01]. *)
Definition advancing_process (node : Node) (e : types.Event) (ctx : UnixParserCtx)
    (env : ExprEnv) : types.Event * (bool * option error) :=
  if decide (OnSuccess node = "next_stage" /\ types.Stage e = "s00")
  then (types.set_Stage "s01" e, (true, None))
  else (e, (true, None)).

(** Nodes that behave as their name says: ["rewind"] matches and sets
    the stage back to [s00] (a static on [evt.Stage]), ["fail"] fails,
    ["miss"] does not match, any other node matches. *)
Definition scripted_process (node : Node) (e : types.Event) (ctx : UnixParserCtx)
    (env : ExprEnv) : types.Event * (bool * option error) :=
  if decide (rn node = "rewind") then (types.set_Stage "s00" e, (true, None))
  else if decide (rn node = "fail") then (e, (false, Some "node failed"))
  else if decide (rn node = "miss") then (e, (false, None))
  else (e, (true, None)).

Example Parse_scenario_A :
  let r := Parse advancing_process two_stages 7 (blank_event "")
             [plain_node "n0" "s00" "next_stage"; plain_node "n1" "s01" ""] in
  types.Stage r.1 = "s01" /\ types.Process r.1 = true /\ r.2 = None.
Proof. vm_compute. done. Qed.

Lemma advancing_process_never_moves_back nodes :
  never_moves_back advancing_process two_stages nodes.
Proof.
  intros node e _ _ _. unfold advancing_process.
  destruct (decide _) as [[_ He]|_]; simpl; [|lia].
  rewrite He. vm_compute. discriminate.
Qed.

Lemma Parse_stage_progress_witness :
  (let r := Parse advancing_process two_stages 7 (blank_event "")
              [plain_node "n0" "s00" "next_stage"; plain_node "n1" "s01" ""] in
   stage_le two_stages "" (types.Stage r.1) /\ types.Process r.1 = true) /\
  (let r := Parse scripted_process two_stages 7 (blank_event "s01")
              [plain_node "miss" "s01" ""; plain_node "rewind" "s01" ""] in
   types.Process r.1 = true /\
   exists before node after e_in e_out,
     [plain_node "miss" "s01" ""; plain_node "rewind" "s01" ""] = before ++ node :: after /\
     Stage node = "s01" /\ types.Stage e_in = "s01" /\
     scripted_process (profiled two_stages node) e_in two_stages {[ "evt" := e_in ]}
       = (e_out, (true, None))).
Proof.
  split.
  - intros r.
    assert (Hempty : "" ∉ Stages two_stages).
    { simpl. intros H. repeat (apply elem_of_cons in H as [H|H]; [discriminate|]).
      by apply elem_of_nil in H. }
    destruct (Parse_stage_progress advancing_process two_stages 7 (blank_event "")
                [plain_node "n0" "s00" "next_stage"; plain_node "n1" "s01" ""]
                r.1 r.2) as [Hle _]; [apply surjective_pairing|].
    split; [|vm_compute; reflexivity].
    exact (Hle Hempty (advancing_process_never_moves_back _)).
  - intros r. split; [vm_compute; reflexivity|].
    destruct (Parse_stage_progress scripted_process two_stages 7 (blank_event "s01")
                [plain_node "miss" "s01" ""; plain_node "rewind" "s01" ""]
                r.1 r.2) as [_ Hpassed]; [apply surjective_pairing|].
    destruct Hpassed as [_ Hall]; [vm_compute; reflexivity | vm_compute; reflexivity |].
    destruct (Hall ["s00"] "s01" [] eq_refl) as (ek & Hreach & [Hahead|[_ Hnode]]).
    + exfalso. vm_compute in Hreach. inversion Hreach; subst.
      vm_compute in Hahead. discriminate.
    + destruct Hnode as (before & node & after & e_in & e_out & Hsplit & Hs & _ & Hin & Hp).
      by exists before, node, after, e_in, e_out.
Defined.

(** C1, as stated, fails twice.  A node may rewrite [evt.Stage]: an event
    injected at [s01] whose only node sets the stage back to [s00] comes
    out at [s00], before its initial stage, with [Process = true].  And an
    event injected at [s01] passes with [Process = true] although the
    skipped stage [s00] has no node at all, let alone a matching one. *)
Lemma Parse_stage_claim_counterexample :
  (let r := Parse scripted_process two_stages 7 (blank_event "s01")
              [plain_node "rewind" "s01" ""] in
   r.2 = None /\ types.Process r.1 = true /\ types.Stage r.1 = "s00" /\
   ~ stage_le two_stages "s01" (types.Stage r.1)) /\
  (let nodes := [plain_node "n1" "s01" ""] in
   let r := Parse advancing_process two_stages 7 (blank_event "s01") nodes in
   r.2 = None /\ types.Process r.1 = true /\
   "s00" ∈ Stages two_stages /\
   ~ exists node, node ∈ nodes /\ Stage node = "s00").
Proof.
  split.
  - repeat split; try reflexivity.
    intros [H|H]; vm_compute in H; discriminate.
  - repeat split; try reflexivity; [apply in_here|].
    intros (node & Hin & Hs).
    apply elem_of_cons in Hin as [->|Hin]; [discriminate|]. by apply elem_of_nil in Hin.
Qed.

Lemma Parse_stage_failure_witness :
  (* behind: the node of s00 matches but never asks for the next stage *)
  (exists e, Parse scripted_process two_stages 7 (blank_event "")
               [plain_node "stay" "s00" ""; plain_node "n1" "s01" ""]
             = (e, None) /\ types.Process e = false /\ types.Stage e = "s00") /\
  (* no node of the stage matches *)
  (exists e, Parse scripted_process two_stages 7 (blank_event "")
               [plain_node "miss" "s00" ""; plain_node "n1" "s01" ""]
             = (e, None) /\ types.Process e = false) /\
  (* a node fails *)
  (exists e, Parse scripted_process two_stages 7 (blank_event "")
               [plain_node "fail" "s00" ""; plain_node "n1" "s00" ""]
             = (e, Some "node failed")).
Proof.
  split; [|split].
  - pose (nodes := [plain_node "stay" "s00" ""; plain_node "n1" "s01" ""]).
    pose (ek := Parse_init two_stages 7 (blank_event "")).
    destruct (Parse_stage_failure scripted_process two_stages 7 (blank_event "") nodes
                ["s00"] "s01" [] ek) as (Hbehind & _);
      [reflexivity | vm_compute; reflexivity | vm_compute; discriminate |].
    eexists. split; [apply Hbehind; vm_compute; discriminate|].
    split; reflexivity.
  - pose (nodes := [plain_node "miss" "s00" ""; plain_node "n1" "s01" ""]).
    pose (ek := Parse_init two_stages 7 (blank_event "")).
    destruct (Parse_stage_failure scripted_process two_stages 7 (blank_event "") nodes
                [] "s00" ["s01"] ek) as (_ & Hmiss & _);
      [reflexivity | vm_compute; reflexivity | vm_compute; discriminate |].
    eexists. split; [apply Hmiss; vm_compute; reflexivity|]. reflexivity.
  - pose (nodes := [plain_node "fail" "s00" ""; plain_node "n1" "s00" ""]).
    pose (ek := Parse_init two_stages 7 (blank_event "")).
    destruct (Parse_stage_failure scripted_process two_stages 7 (blank_event "") nodes
                [] "s00" ["s01"] ek) as (_ & _ & _ & Hfail & _);
      [reflexivity | vm_compute; reflexivity | vm_compute; discriminate |].
    eexists. apply Hfail; vm_compute; reflexivity.
Defined.

Lemma Parse_unknown_stage_witness :
  Parse scripted_process two_stages 7 (blank_event "s99")
    [plain_node "n0" "s00" "next_stage"; plain_node "fail" "s01" ""]
  = (types.set_Process false (Parse_init two_stages 7 (blank_event "s99")), None).
Proof.
  apply (Parse_unknown_stage scripted_process two_stages 7 (blank_event "s99")).
  - discriminate.
  - simpl. intros H. repeat (apply elem_of_cons in H as [H|H]; [discriminate|]).
    by apply elem_of_nil in H.
  - discriminate.
Defined.

(** ** Further properties of the runtime *)

Lemma stageidx_from_found k stage stages :
  stage ∈ stages ->
  exists i : nat,
    stageidx_from k stage stages = k + Z.of_nat i /\
    stages !! i = Some stage /\
    forall j : nat, (j < i)%nat -> stages !! j <> Some stage.
Proof.
  revert k. induction stages as [|v rest IH]; intros k Hin.
  - by apply elem_of_nil in Hin.
  - simpl. destruct (decide (stage = v)) as [->|Hne].
    + exists 0%nat. split; [lia|]. split; [done|]. intros j Hj. lia.
    + apply elem_of_cons in Hin as [?|Hin]; [done|].
      destruct (IH (k + 1) Hin) as (i & Hidx & Hat & Hfirst).
      exists (S i). split; [lia|]. split; [done|].
      intros [|j] Hj; simpl; [congruence|]. apply Hfirst. lia.
Qed.

(** [stageidx] answers [-1] exactly for a stage that is not configured,
    and otherwise the position of the first occurrence of the stage. *)
Theorem stageidx_first_occurrence stage stages :
  (stage ∉ stages <-> stageidx stage stages = -1) /\
  (stage ∈ stages <->
   exists i : nat,
     stageidx stage stages = Z.of_nat i /\
     stages !! i = Some stage /\
     forall j : nat, (j < i)%nat -> stages !! j <> Some stage).
Proof.
  split; split.
  - apply stageidx_from_absent.
  - intros Hidx Hin. destruct (stageidx_from_found 0 _ _ Hin) as (i & Hi & _).
    unfold stageidx in Hidx. lia.
  - intros Hin. destruct (stageidx_from_found 0 _ _ Hin) as (i & Hi & Hrest).
    exists i. split; [unfold stageidx; lia | done].
  - intros (i & _ & Hat & _). by eapply list_elem_of_lookup_2.
Qed.

Section RuntimeEdges.

Variable process :
  Node -> types.Event -> UnixParserCtx -> ExprEnv -> types.Event * (bool * option error).

(** Nodes of other stages are passed over without being called. *)
Lemma nodes_loop_other_stages ctx stage pre rest event ok :
  Forall (fun node => Stage node <> types.Stage event) pre ->
  nodes_loop process ctx stage (pre ++ rest) event ok
  = nodes_loop process ctx stage rest event ok.
Proof.
  induction pre as [|n pre IH]; intros Hpre; [done|].
  apply Forall_cons in Hpre as [Hn Hpre]. simpl.
  destruct (decide (types.Stage event <> Stage n)) as [_|Heq]; [by apply IH|].
  apply dec_stable in Heq. congruence.
Qed.

(** A configured stage none of whose nodes is loaded rejects every event
    that reaches it: [Parse] answers [Process = false], without error and
    without calling a node. *)
Theorem Parse_stage_without_nodes ctx now xp nodes pre s post ek :
  Stages ctx = pre ++ s :: post ->
  stages_loop process ctx pre nodes (Parse_init ctx now xp) = StagesDone ek ->
  types.Stage ek = s ->
  Forall (fun node => Stage node <> s) nodes ->
  Parse process ctx now xp nodes = (types.set_Process false ek, None).
Proof.
  intros Hsplit Hreach Hat Hnone.
  unfold Parse. rewrite Hsplit at 1. rewrite stages_loop_app, Hreach.
  cbn [stages_loop]. rewrite Hat.
  destruct (decide (stageidx s (Stages ctx) > stageidx s (Stages ctx))); [lia|].
  destruct (decide (s <> s)); [done|].
  assert (Hloop : nodes_loop process ctx s nodes ek false = NodesDone ek false).
  { rewrite <- (app_nil_r nodes). rewrite nodes_loop_other_stages; [done|].
    by rewrite Hat. }
  by rewrite Hloop.
Qed.

(** The first node of the event's stage that matches with
    [onsuccess: next_stage] ends the stage: the nodes after it are not
    called.  So does a node that moves the event to another stage,
    whatever it answers and whatever its [onsuccess]. *)
Theorem nodes_loop_stops ctx pre node rest event ok event1 ret :
  Forall (fun n => Stage n <> types.Stage event) pre ->
  Stage node = types.Stage event ->
  process (profiled ctx node) event ctx {[ "evt" := event ]} = (event1, (ret, None)) ->
  (ret = true /\ OnSuccess node = "next_stage") \/ types.Stage event1 <> types.Stage event ->
  nodes_loop process ctx (types.Stage event) (pre ++ node :: rest) event ok
  = NodesDone event1 (if ret then true else ok).
Proof.
  intros Hpre Hstage Hcall Hstop. rewrite nodes_loop_other_stages by done.
  cbn [nodes_loop]. destruct (decide (types.Stage event <> Stage node)); [congruence|].
  fold (profiled ctx node). rewrite Hcall.
  assert (Hon : OnSuccess (profiled ctx node) = OnSuccess node).
  { unfold profiled. by destruct (CtxProfiling ctx). }
  rewrite Hon.
  destruct Hstop as [[-> Hnext]|Hmoved].
  - simpl. by rewrite bool_decide_eq_true_2.
  - destruct (ret && bool_decide (OnSuccess node = "next_stage")); [done|].
    by destruct (decide (types.Stage event1 <> types.Stage event)).
Qed.

End RuntimeEdges.

Lemma Parse_stage_without_nodes_witness :
  Parse scripted_process two_stages 7 (blank_event "") [plain_node "n1" "s01" ""]
  = (types.set_Process false (Parse_init two_stages 7 (blank_event "")), None).
Proof.
  apply (Parse_stage_without_nodes scripted_process two_stages 7 (blank_event "")
           [plain_node "n1" "s01" ""] [] "s00" ["s01"]).
  - reflexivity.
  - vm_compute. reflexivity.
  - vm_compute. reflexivity.
  - repeat constructor. discriminate.
Defined.

Lemma nodes_loop_stops_witness :
  nodes_loop advancing_process two_stages "s00"
    [plain_node "late" "s01" ""; plain_node "n0" "s00" "next_stage";
     plain_node "never" "s00" ""]
    (Parse_init two_stages 7 (blank_event "")) false
  = NodesDone (types.set_Stage "s01" (Parse_init two_stages 7 (blank_event ""))) true.
Proof.
  apply (nodes_loop_stops advancing_process two_stages [plain_node "late" "s01" ""]
           (plain_node "n0" "s00" "next_stage") [plain_node "never" "s00" ""]
           (Parse_init two_stages 7 (blank_event "")) false _ true).
  - repeat constructor. vm_compute. discriminate.
  - vm_compute. reflexivity.
  - vm_compute. reflexivity.
  - left. split; reflexivity.
Defined.


(** ** Further properties of [ProcessStatics] *)

Section StaticsEdges.

Variable Sprintf_f : any -> string.
Variable SetTargetByName : string -> string -> types.Event -> bool * types.Event.

(** Running the statics of two lists one after the other is running the
    first list and, if it returns without error, the second on the event
    and log it left. *)
Theorem ProcessStatics_app n first second event clog :
  ProcessStatics Sprintf_f SetTargetByName n (first ++ second) event clog =
  match ProcessStatics Sprintf_f SetTargetByName n first event clog with
  | Returned None event' clog' =>
      ProcessStatics Sprintf_f SetTargetByName n second event' clog'
  | other => other
  end.
Proof.
  revert event clog. induction first as [|static rest IH]; intros event clog; [done|].
  cbn [app ProcessStatics].
  destruct (static_step Sprintf_f SetTargetByName n static event clog);
    [apply IH | done | done | done].
Qed.

Lemma merge_enriched_no_return ret event clog err event' clog' :
  merge_enriched ret event clog <> Return_ err event' clog'.
Proof.
  unfold merge_enriched. destruct (decide (ret = ∅)); [done|].
  by destruct (types.Enriched event).
Qed.

Lemma use_value_no_return n static value event clog err event' clog' :
  use_value SetTargetByName n static value event clog <> Return_ err event' clog'.
Proof.
  unfold use_value, assign_target.
  destruct (decide (value = "" /\ Method static <> "ParseDate")); [done|].
  destruct (decide (Method static <> "")).
  { destruct (Registered (EnrichFunctions n) !! Method static) as [enrichFunc|]; [|done].
    destruct (enrichFunc value event) as [e [ret er]].
    apply merge_enriched_no_return. }
  destruct (decide (Parsed static <> "")); [by destruct (map_assign _ _ _)|].
  destruct (decide (Meta static <> "")); [by destruct (map_assign _ _ _)|].
  destruct (decide (Enriched static <> "")); [by destruct (map_assign _ _ _)|].
  destruct (decide (TargetByName static <> "")); [|done].
  destruct (SetTargetByName _ _ _) as [ok e]. by destruct ok.
Qed.

(** The only error [ProcessStatics] returns is the one of a static
    without literal value whose expression ran without error and answered
    a value that is neither string, int, float, [map[string]any], [[]any]
    nor nil.  Failing expressions, unknown methods and targets that cannot
    be set never make it return an error. *)
Theorem ProcessStatics_error_origin n statics event clog err event' clog' :
  ProcessStatics Sprintf_f SetTargetByName n statics event clog
    = Returned (Some err) event' clog' ->
  err = "unexpected return type for RunTimeValue" /\
  exists static prog e_in out,
    static ∈ statics /\ Value static = "" /\ RunTimeValue static = Some prog /\
    Run prog {[ "evt" := e_in ]} = (out, None) /\
    match out with
    | VBool _ | VOther _ => True
    | _ => False
    end.
Proof.
  revert event clog. induction statics as [|static rest IH]; intros event clog Hrun;
    [done|].
  cbn [ProcessStatics] in Hrun.
  destruct (static_step Sprintf_f SetTargetByName n static event clog)
    as [e1 l1|er e1 l1|l1|] eqn:Hstep; try done.
  - destruct (IH _ _ Hrun) as (-> & st & prog & e_in & out & Hin & Hrest).
    split; [done|]. exists st, prog, e_in, out. split; [by apply in_further | done].
  - inversion Hrun; subst. clear Hrun IH.
    unfold static_step, resolve_value in Hstep.
    destruct (decide (Value static <> "")) as [|Hval];
      [by apply use_value_no_return in Hstep|].
    apply dec_stable in Hval.
    destruct (RunTimeValue static) as [prog|] eqn:Hprog;
      [|by apply use_value_no_return in Hstep].
    destruct (Run prog {[ "evt" := event ]}) as [out [er|]] eqn:Hout; [done|].
    destruct out; try (by apply use_value_no_return in Hstep);
      (split; [by inversion Hstep|]);
      eexists static, prog, event, _; (split; [apply in_here|]); by rewrite Hout.
Qed.

(** A literal [meta] assignment: no method, no [parsed] key, a [meta]
    key and a literal value. *)
Definition literal_meta (static : ExtraField) : Prop :=
  Method static = "" /\ Parsed static = "" /\ Meta static <> "" /\ Value static <> "".

(** Literal [meta] statics act on an event whose [Meta] map is made as
    successive inserts into it: later statics win, nothing else of the
    event changes, and [ProcessStatics] returns without error.  On an
    event whose [Meta] map is [nil] the first of them panics. *)
Theorem ProcessStatics_literal_meta n statics event clog :
  Forall literal_meta statics ->
  match types.Meta event with
  | Some m =>
      exists clog',
        ProcessStatics Sprintf_f SetTargetByName n statics event clog
        = Returned None
            (types.set_Meta
               (Some (foldl (fun m static => <[Meta static := Value static]> m) m statics))
               event)
            clog'
  | None =>
      statics <> [] ->
      ProcessStatics Sprintf_f SetTargetByName n statics event clog = Panicked
  end.
Proof.
  intros Hall.
  assert (Hstep : forall static e l, literal_meta static ->
            static_step Sprintf_f SetTargetByName n static e l =
            match map_assign (types.Meta e) (Meta static) (Value static) with
            | Some m =>
                Continue (types.set_Meta m e)
                  (log.emit log.Debug ".Meta[%s] = '%s'"
                     [log.AStr (Meta static); log.AStr (Value static)] l)
            | None => Panic
            end).
  { intros static e l (Hm & Hp & Hk & Hv).
    unfold static_step, resolve_value, use_value, assign_target.
    destruct (decide (Value static <> "")); [|done].
    destruct (decide (Value static = "" /\ Method static <> "ParseDate")) as [[? _]|_];
      [done|].
    destruct (decide (Method static <> "")); [done|].
    destruct (decide (Parsed static <> "")); [done|].
    by destruct (decide (Meta static <> "")). }
  destruct (types.Meta event) as [m|] eqn:Hmeta.
  - revert event clog m Hmeta.
    induction Hall as [|static rest Hstatic Hrest IH]; intros event clog m Hmeta.
    + exists clog. simpl. f_equal. destruct event; simpl in *; by subst.
    + cbn [ProcessStatics foldl]. rewrite (Hstep _ _ _ Hstatic), Hmeta. simpl.
      destruct (IH (types.set_Meta (Some (<[Meta static := Value static]> m)) event)
                  (log.emit log.Debug ".Meta[%s] = '%s'"
                     [log.AStr (Meta static); log.AStr (Value static)] clog)
                  (<[Meta static := Value static]> m) eq_refl) as [clog' Hrun].
      exists clog'. by rewrite Hrun.
  - intros Hne. destruct Hall as [|static rest Hstatic _]; [done|].
    cbn [ProcessStatics]. by rewrite (Hstep _ _ _ Hstatic), Hmeta.
Qed.

(** Statics that call enrichment methods which are not registered leave
    the event as it is and do not make [ProcessStatics] fail. *)
Theorem ProcessStatics_unregistered_methods n statics event clog :
  Forall (fun static =>
            Method static <> "" /\ Value static <> "" /\
            Registered (EnrichFunctions n) !! Method static = None) statics ->
  exists clog',
    ProcessStatics Sprintf_f SetTargetByName n statics event clog
    = Returned None event clog'.
Proof.
  intros Hall. revert clog.
  induction Hall as [|static rest (Hm & Hv & Hreg) _ IH]; intros clog.
  - by exists clog.
  - cbn [ProcessStatics]. unfold static_step, resolve_value, use_value, assign_target.
    destruct (decide (Value static <> "")); [|done].
    destruct (decide (Value static = "" /\ Method static <> "ParseDate")) as [[? _]|_];
      [done|].
    destruct (decide (Method static <> "")); [|done].
    unfold EnrichFunc in *. rewrite Hreg. apply IH.
Qed.

End StaticsEdges.

(** An expression that answers a boolean, which no static can use. *)
Definition flag_static : ExtraField :=
  mkExtraField "" "" "" "checked" "" "evt.Whitelisted" (Some (fun env => (VBool true, None))) "".

Definition literal_static (method meta value : string) : ExtraField :=
  mkExtraField "" "" "" meta value "" None method.

Lemma ProcessStatics_error_origin_witness :
  exists static prog e_in out,
    static ∈ [geo_static; flag_static; empty_meta_static] /\
    Value static = "" /\ RunTimeValue static = Some prog /\
    Run prog {[ "evt" := e_in ]} = (out, None) /\
    match out with
    | VBool _ | VOther _ => True
    | _ => False
    end.
Proof.
  edestruct (ProcessStatics_error_origin fixed_Sprintf_f refuse_SetTargetByName
               enriching_node [geo_static; flag_static; empty_meta_static] ready_event []
               "unexpected return type for RunTimeValue" ready_event) as [_ Horigin];
    [vm_compute; reflexivity|].
  exact Horigin.
Defined.

Lemma ProcessStatics_literal_meta_witness :
  exists clog',
    ProcessStatics fixed_Sprintf_f refuse_SetTargetByName enriching_node
      [literal_static "" "service" "ssh"; literal_static "" "service" "sshd"] ready_event []
    = Returned None (types.set_Meta (Some {[ "service" := "sshd" ]}) ready_event) clog'.
Proof.
  pose proof (ProcessStatics_literal_meta fixed_Sprintf_f refuse_SetTargetByName
                enriching_node
                [literal_static "" "service" "ssh"; literal_static "" "service" "sshd"]
                ready_event []) as Hrun.
  change (types.Meta ready_event) with (Some (∅ : gmap string string)) in Hrun.
  destruct Hrun as [clog' Hrun].
  { repeat constructor; discriminate. }
  exists clog'. rewrite Hrun. reflexivity.
Defined.

Lemma ProcessStatics_unregistered_methods_witness :
  exists clog',
    ProcessStatics fixed_Sprintf_f refuse_SetTargetByName enriching_node
      [literal_static "GeoIpCity" "" "192.0.2.7"; literal_static "Reverse" "" "192.0.2.7"]
      ready_event []
    = Returned None ready_event clog'.
Proof.
  apply (ProcessStatics_unregistered_methods fixed_Sprintf_f refuse_SetTargetByName).
  repeat constructor; try discriminate; vm_compute; reflexivity.
Defined.

(** ** [CheckIPsWL] and [CompileWLs] *)

Definition ContainsIPLists (n : Node) : bool :=
  bool_decide (0 < length (B_Ips (Whitelist_ n)))%nat
  || bool_decide (0 < length (B_Cidrs (Whitelist_ n)))%nat.

Definition ContainsWLs (n : Node) : bool := ContainsIPLists n || ContainsExprLists n.

Definition set_Whitelist (w : Whitelist) (n : Node) : Node :=
  mkNode (rn n) (Name n) (Stage n) (OnSuccess n) (Profiling n) (Debug n)
    w (Statics n) (EnrichFunctions n).

Section Whitelists.

(** Addresses and prefixes of [net/netip] are kept as text; parsing
    them, testing whether a prefix contains an address, extracting the
    source addresses of an event and compiling an expression are left to
    the packages that do it. *)
Variable ParseIPSources : types.Event -> list string.
Variable Contains : string -> string -> bool.
Variable ParseAddr : string -> string * option error.
Variable ParsePrefix : string -> string * option error.
Variable expr_Compile : string -> Program * option error.

(** [for _, v := range n.Whitelist.B_Ips { ... }] for the source [src]. *)
Fixpoint ips_loop (n : Node) (src : string) (ips : list string) (isWhitelisted : bool)
    (logger : log.Log) : bool * log.Log :=
  match ips with
  | [] => (isWhitelisted, logger)
  | v :: rest =>
      if decide (v = src) then
        (true,
         log.emit log.Debug "Event from [%s] is whitelisted by IP (%s), reason [%s]"
           [log.AStr src; log.AStr v; log.AStr (Reason (Whitelist_ n))] logger)
      else
        ips_loop n src rest isWhitelisted
          (log.emit log.Trace "whitelist: %s is not eq [%s]" [log.AStr src; log.AStr v] logger)
  end.

(** [for _, v := range n.Whitelist.B_Cidrs { ... }] for the source [src]. *)
Fixpoint cidrs_loop (n : Node) (src : string) (cidrs : list string) (isWhitelisted : bool)
    (logger : log.Log) : bool * log.Log :=
  match cidrs with
  | [] => (isWhitelisted, logger)
  | v :: rest =>
      if Contains v src then
        (true,
         log.emit log.Debug "Event from [%s] is whitelisted by CIDR (%s), reason [%s]"
           [log.AStr src; log.AStr v; log.AStr (Reason (Whitelist_ n))] logger)
      else
        cidrs_loop n src rest isWhitelisted
          (log.emit log.Trace "whitelist: %s not in [%s]" [log.AStr src; log.AStr v] logger)
  end.

(** [for _, src := range srcs { ... }]. *)
Fixpoint srcs_loop (n : Node) (srcs : list string) (isWhitelisted : bool)
    (logger : log.Log) : bool * log.Log :=
  match srcs with
  | [] => (isWhitelisted, logger)
  | src :: rest =>
      if isWhitelisted then (isWhitelisted, logger)
      else
        let '(isWhitelisted, logger) :=
          ips_loop n src (B_Ips (Whitelist_ n)) isWhitelisted logger in
        let '(isWhitelisted, logger) :=
          cidrs_loop n src (B_Cidrs (Whitelist_ n)) isWhitelisted logger in
        srcs_loop n rest isWhitelisted logger
  end.

Definition CheckIPsWL (n : Node) (p : types.Event) (metrics : Metrics) (logger : log.Log)
    : bool * Metrics * log.Log :=
  let srcs := ParseIPSources p in
  let isWhitelisted := false in
  if negb (ContainsIPLists n) then (isWhitelisted, metrics, logger)
  else
    let metrics :=
      mkMetrics (Inc (wl_labels n p) (NodesWlHits metrics)) (NodesWlHitsOk metrics) in
    let '(isWhitelisted, logger) := srcs_loop n srcs isWhitelisted logger in
    let metrics :=
      if isWhitelisted
      then mkMetrics (NodesWlHits metrics) (Inc (wl_labels n p) (NodesWlHitsOk metrics))
      else metrics in
    (isWhitelisted, metrics, logger).

(** The three loops of [CompileWLs]; each stops at the first entry that
    does not parse, with the entries before it already appended. *)
Fixpoint compile_ips (n : Node) (ips : list string) (logger : log.Log)
    : Node * option error * log.Log :=
  match ips with
  | [] => (n, None, logger)
  | v :: rest =>
      let '(addr, err) := ParseAddr v in
      match err with
      | Some err => (n, Some ("parsing whitelist: " +:+ err), logger)
      | None =>
          let w := Whitelist_ n in
          let n :=
            set_Whitelist
              (mkWhitelist (Reason w) (Ips w) (B_Ips w ++ [addr]) (Cidrs w) (B_Cidrs w)
                 (Exprs w) (B_Exprs w)) n in
          compile_ips n rest
            (log.emit log.Debug "adding ip %s to whitelists" [log.AStr addr] logger)
      end
  end.

Fixpoint compile_cidrs (n : Node) (cidrs : list string) (logger : log.Log)
    : Node * option error * log.Log :=
  match cidrs with
  | [] => (n, None, logger)
  | v :: rest =>
      let '(tnet, err) := ParsePrefix v in
      match err with
      | Some err => (n, Some ("parsing whitelist: " +:+ err), logger)
      | None =>
          let w := Whitelist_ n in
          let n :=
            set_Whitelist
              (mkWhitelist (Reason w) (Ips w) (B_Ips w) (Cidrs w) (B_Cidrs w ++ [tnet])
                 (Exprs w) (B_Exprs w)) n in
          compile_cidrs n rest
            (log.emit log.Debug "adding cidr %s to whitelists" [log.AStr tnet] logger)
      end
  end.

Fixpoint compile_exprs (n : Node) (exprs : list string) (logger : log.Log)
    : Node * option error * log.Log :=
  match exprs with
  | [] => (n, None, logger)
  | filter :: rest =>
      let '(program, err) := expr_Compile filter in
      match err with
      | Some err =>
          (n, Some ("unable to compile whitelist expression '" +:+ filter +:+ "' : " +:+ err),
           logger)
      | None =>
          let w := Whitelist_ n in
          let n :=
            set_Whitelist
              (mkWhitelist (Reason w) (Ips w) (B_Ips w) (Cidrs w) (B_Cidrs w)
                 (Exprs w) (B_Exprs w ++ [mkExprWhitelist program])) n in
          compile_exprs n rest
            (log.emit log.Debug "adding expression %s to whitelists" [log.AStr filter] logger)
      end
  end.

(** [CompileWLs]: the node as it leaves it, and what it returns. *)
Definition CompileWLs (n : Node) (logger : log.Log)
    : Node * (bool * option error) * log.Log :=
  match compile_ips n (Ips (Whitelist_ n)) logger with
  | (n, Some err, logger) => (n, (false, Some err), logger)
  | (n, None, logger) =>
      match compile_cidrs n (Cidrs (Whitelist_ n)) logger with
      | (n, Some err, logger) => (n, (false, Some err), logger)
      | (n, None, logger) =>
          match compile_exprs n (Exprs (Whitelist_ n)) logger with
          | (n, Some err, logger) => (n, (false, Some err), logger)
          | (n, None, logger) => (n, (ContainsWLs n, None), logger)
          end
      end
  end.

(** *** The properties of [CheckIPsWL] *)

(** The source is one of the compiled addresses or lies in one of the
    compiled prefixes. *)
Definition listed (n : Node) (src : string) : bool :=
  bool_decide (src ∈ B_Ips (Whitelist_ n))
  || existsb (fun cidr => Contains cidr src) (B_Cidrs (Whitelist_ n)).

Lemma ips_loop_result n src ips w l :
  (ips_loop n src ips w l).1 = w || bool_decide (src ∈ ips).
Proof.
  revert l. induction ips as [|v rest IH]; intros l.
  - simpl. by rewrite orb_false_r.
  - cbn [ips_loop]. destruct (decide (v = src)) as [->|Hne]; cbn [fst].
    + rewrite bool_decide_eq_true_2; [by rewrite orb_true_r | apply in_here].
    + rewrite IH. f_equal. apply bool_decide_ext. rewrite elem_of_cons.
      split; [by right | intros [Heq|Hin]; [congruence | done]].
Qed.

Lemma cidrs_loop_result n src cidrs w l :
  (cidrs_loop n src cidrs w l).1 = w || existsb (fun cidr => Contains cidr src) cidrs.
Proof.
  revert l. induction cidrs as [|v rest IH]; intros l; simpl.
  - by rewrite orb_false_r.
  - destruct (Contains v src); simpl; [by rewrite orb_true_r | apply IH].
Qed.

Lemma srcs_loop_result n srcs w l :
  (srcs_loop n srcs w l).1 = w || existsb (listed n) srcs.
Proof.
  revert w l. induction srcs as [|src rest IH]; intros w l; simpl.
  - by rewrite orb_false_r.
  - destruct w; [done|]. simpl.
    pose proof (ips_loop_result n src (B_Ips (Whitelist_ n)) false l) as Hips.
    destruct (ips_loop n src (B_Ips (Whitelist_ n)) false l) as [w1 l1]. simpl in Hips.
    pose proof (cidrs_loop_result n src (B_Cidrs (Whitelist_ n)) w1 l1) as Hcidrs.
    destruct (cidrs_loop n src (B_Cidrs (Whitelist_ n)) w1 l1) as [w2 l2].
    simpl in Hcidrs. rewrite IH, Hcidrs, Hips. by unfold listed.
Qed.

(** [CheckIPsWL] answers [true] exactly when one of the sources of the
    event is a compiled address or lies in a compiled prefix.  A node
    without compiled addresses and prefixes touches no counter; otherwise
    the hit counter goes up by one on every call and the success counter
    by one exactly when the answer is [true]. *)
Theorem CheckIPsWL_result n p metrics logger :
  let matched := existsb (listed n) (ParseIPSources p) in
  let hit := Inc (wl_labels n p) (NodesWlHits metrics) in
  (CheckIPsWL n p metrics logger).1.1 = matched /\
  (CheckIPsWL n p metrics logger).1.2 =
    if ContainsIPLists n then
      mkMetrics hit
        (if matched then Inc (wl_labels n p) (NodesWlHitsOk metrics)
         else NodesWlHitsOk metrics)
    else metrics.
Proof.
  intros matched hit. unfold CheckIPsWL.
  destruct (ContainsIPLists n) eqn:Hlists; simpl.
  - pose proof (srcs_loop_result n (ParseIPSources p) false logger) as Hloop.
    destruct (srcs_loop n (ParseIPSources p) false logger) as [w l]. simpl in *.
    fold matched in Hloop. subst w. split; [done|]. by destruct matched.
  - split; [|done]. symmetry. unfold matched.
    apply not_true_is_false. intros Hex. apply existsb_exists in Hex as (src & _ & Hsrc).
    unfold ContainsIPLists in Hlists. apply orb_false_elim in Hlists as [Hips Hcidrs].
    apply bool_decide_eq_false in Hips. apply bool_decide_eq_false in Hcidrs.
    unfold listed in Hsrc.
    destruct (B_Ips (Whitelist_ n)); [|simpl in Hips; lia].
    destruct (B_Cidrs (Whitelist_ n)); [|simpl in Hcidrs; lia].
    by vm_compute in Hsrc.
Qed.

(** *** The properties of [CompileWLs] *)

(** The node with more compiled entries. *)
Definition add_compiled (ips cidrs : list string) (exprs : list ExprWhitelist) (n : Node)
    : Node :=
  let w := Whitelist_ n in
  set_Whitelist
    (mkWhitelist (Reason w) (Ips w) (B_Ips w ++ ips) (Cidrs w) (B_Cidrs w ++ cidrs)
       (Exprs w) (B_Exprs w ++ exprs)) n.

Lemma add_compiled_nil n : add_compiled [] [] [] n = n.
Proof.
  destruct n as [? ? ? ? ? ? [] ? ?]. unfold add_compiled, set_Whitelist. simpl.
  by rewrite !app_nil_r.
Qed.

Lemma add_compiled_twice a b c a' b' c' n :
  add_compiled a' b' c' (add_compiled a b c n) = add_compiled (a ++ a') (b ++ b') (c ++ c') n.
Proof. unfold add_compiled, set_Whitelist. simpl. by rewrite !app_assoc. Qed.

Lemma add_compiled_ip addr n :
  set_Whitelist
    (mkWhitelist (Reason (Whitelist_ n)) (Ips (Whitelist_ n)) (B_Ips (Whitelist_ n) ++ [addr])
       (Cidrs (Whitelist_ n)) (B_Cidrs (Whitelist_ n)) (Exprs (Whitelist_ n))
       (B_Exprs (Whitelist_ n))) n
  = add_compiled [addr] [] [] n.
Proof. unfold add_compiled. cbv zeta. by rewrite !app_nil_r. Qed.

Lemma add_compiled_cidr tnet n :
  set_Whitelist
    (mkWhitelist (Reason (Whitelist_ n)) (Ips (Whitelist_ n)) (B_Ips (Whitelist_ n))
       (Cidrs (Whitelist_ n)) (B_Cidrs (Whitelist_ n) ++ [tnet]) (Exprs (Whitelist_ n))
       (B_Exprs (Whitelist_ n))) n
  = add_compiled [] [tnet] [] n.
Proof. unfold add_compiled. cbv zeta. by rewrite !app_nil_r. Qed.

Lemma add_compiled_expr e n :
  set_Whitelist
    (mkWhitelist (Reason (Whitelist_ n)) (Ips (Whitelist_ n)) (B_Ips (Whitelist_ n))
       (Cidrs (Whitelist_ n)) (B_Cidrs (Whitelist_ n)) (Exprs (Whitelist_ n))
       (B_Exprs (Whitelist_ n) ++ [e])) n
  = add_compiled [] [] [e] n.
Proof. unfold add_compiled. cbv zeta. by rewrite !app_nil_r. Qed.

Lemma compile_ips_ok n ips logger :
  Forall (fun v => (ParseAddr v).2 = None) ips ->
  exists logger',
    compile_ips n ips logger
    = (add_compiled (map (fun v => (ParseAddr v).1) ips) [] [] n, None, logger').
Proof.
  intros Hok. revert n logger.
  induction Hok as [|v rest Hv _ IH]; intros n logger.
  - exists logger. simpl. by rewrite add_compiled_nil.
  - cbn [compile_ips map]. destruct (ParseAddr v) as [addr err]. simpl in Hv. subst err.
    cbv zeta. rewrite add_compiled_ip.
    destruct (IH (add_compiled [addr] [] [] n)
                (log.emit log.Debug "adding ip %s to whitelists" [log.AStr addr] logger))
      as [l' Hrun].
    exists l'. rewrite Hrun. by rewrite add_compiled_twice.
Qed.

Lemma compile_cidrs_ok n cidrs logger :
  Forall (fun v => (ParsePrefix v).2 = None) cidrs ->
  exists logger',
    compile_cidrs n cidrs logger
    = (add_compiled [] (map (fun v => (ParsePrefix v).1) cidrs) [] n, None, logger').
Proof.
  intros Hok. revert n logger.
  induction Hok as [|v rest Hv _ IH]; intros n logger.
  - exists logger. simpl. by rewrite add_compiled_nil.
  - cbn [compile_cidrs map]. destruct (ParsePrefix v) as [tnet err]. simpl in Hv. subst err.
    cbv zeta. rewrite add_compiled_cidr.
    destruct (IH (add_compiled [] [tnet] [] n)
                (log.emit log.Debug "adding cidr %s to whitelists" [log.AStr tnet] logger))
      as [l' Hrun].
    exists l'. rewrite Hrun. by rewrite add_compiled_twice.
Qed.

Lemma compile_exprs_ok n exprs logger :
  Forall (fun v => (expr_Compile v).2 = None) exprs ->
  exists logger',
    compile_exprs n exprs logger
    = (add_compiled [] [] (map (fun v => mkExprWhitelist (expr_Compile v).1) exprs) n,
       None, logger').
Proof.
  intros Hok. revert n logger.
  induction Hok as [|v rest Hv _ IH]; intros n logger.
  - exists logger. simpl. by rewrite add_compiled_nil.
  - cbn [compile_exprs map]. destruct (expr_Compile v) as [program err]. simpl in Hv. subst err.
    cbv zeta. rewrite add_compiled_expr.
    destruct (IH (add_compiled [] [] [mkExprWhitelist program] n)
                (log.emit log.Debug "adding expression %s to whitelists" [log.AStr v] logger))
      as [l' Hrun].
    exists l'. rewrite Hrun. by rewrite add_compiled_twice.
Qed.

(** When every configured address, prefix and expression compiles,
    [CompileWLs] returns without error, appends the compiled forms in
    order to those the node already has, and answers whether the node
    now has any compiled entry.  On a node that had no compiled
    expression, every compiled expression then has its source: the
    condition under which [CheckExprWL] cannot index out of range. *)
Theorem CompileWLs_compiles_all n logger :
  let w := Whitelist_ n in
  Forall (fun v => (ParseAddr v).2 = None) (Ips w) ->
  Forall (fun v => (ParsePrefix v).2 = None) (Cidrs w) ->
  Forall (fun v => (expr_Compile v).2 = None) (Exprs w) ->
  let n' :=
    add_compiled (map (fun v => (ParseAddr v).1) (Ips w))
      (map (fun v => (ParsePrefix v).1) (Cidrs w))
      (map (fun v => mkExprWhitelist (expr_Compile v).1) (Exprs w)) n in
  (exists logger', CompileWLs n logger = (n', (ContainsWLs n', None), logger')) /\
  (B_Exprs w = [] ->
   length (B_Exprs (Whitelist_ n')) = length (Exprs (Whitelist_ n'))).
Proof.
  intros w Hips Hcidrs Hexprs n'. split.
  - unfold CompileWLs. fold w.
    destruct (compile_ips_ok n (Ips w) logger Hips) as [l1 ->].
    change (Cidrs (Whitelist_ (add_compiled _ [] [] n))) with (Cidrs w).
    destruct (compile_cidrs_ok (add_compiled (map (fun v => (ParseAddr v).1) (Ips w)) [] [] n)
                (Cidrs w) l1 Hcidrs) as [l2 ->].
    match goal with
    | |- context [compile_exprs ?m ?e ?l] =>
        change e with (Exprs w); destruct (compile_exprs_ok m (Exprs w) l Hexprs) as [l3 ->]
    end.
    exists l3. rewrite !add_compiled_twice. simpl. by rewrite !app_nil_r.
  - intros Hnone. unfold n', add_compiled. simpl. fold w.
    rewrite Hnone. simpl. by rewrite length_map.
Qed.

(** [CompileWLs] stops at the first address that does not parse: it
    returns ["parsing whitelist: "] followed by the parser's error, with
    the addresses before it compiled and neither a prefix nor an
    expression compiled. *)
Theorem CompileWLs_first_bad_address n logger good bad rest addr err :
  Ips (Whitelist_ n) = good ++ bad :: rest ->
  Forall (fun v => (ParseAddr v).2 = None) good ->
  ParseAddr bad = (addr, Some err) ->
  exists logger',
    CompileWLs n logger
    = (add_compiled (map (fun v => (ParseAddr v).1) good) [] [] n,
       (false, Some ("parsing whitelist: " +:+ err)), logger').
Proof.
  intros Hsplit Hgood Hbad. unfold CompileWLs. rewrite Hsplit.
  assert (Hrun : forall m l, exists l',
            compile_ips m (good ++ bad :: rest) l
            = (add_compiled (map (fun v => (ParseAddr v).1) good) [] [] m,
               Some ("parsing whitelist: " +:+ err), l')).
  { clear Hsplit. induction Hgood as [|v good' Hv _ IH]; intros m l.
    - simpl. rewrite Hbad. exists l. by rewrite add_compiled_nil.
    - cbn [compile_ips map app]. destruct (ParseAddr v) as [a e]. simpl in Hv. subst e.
      cbv zeta. rewrite add_compiled_ip.
      destruct (IH (add_compiled [a] [] [] m)
                  (log.emit log.Debug "adding ip %s to whitelists" [log.AStr a] l))
        as [l' Hrun].
      exists l'. rewrite Hrun. by rewrite add_compiled_twice. }
  destruct (Hrun n logger) as [l' ->]. by exists l'.
Qed.

End Whitelists.

(** *** Fixtures for [CheckIPsWL] and [CompileWLs] *)

(** An address parser that refuses a host name, a prefix parser and a
    compiler that accept everything, and a prefix test that knows one
    prefix. *)
Definition test_ParseAddr (v : string) : string * option error :=
  if decide (v = "localhost") then ("", Some "unable to parse IP") else (v, None).

Definition test_ParsePrefix (v : string) : string * option error := (v, None).

Definition test_Compile (filter : string) : Program * option error :=
  (fun env => (VBool true, None), None).

Definition test_Contains (cidr src : string) : bool :=
  bool_decide (cidr = "10.0.0.0/8") && bool_decide (String.prefix "10." src = true).

Definition test_ParseIPSources (p : types.Event) : list string :=
  match types.Meta p with
  | Some m => match m !! "source_ip" with Some ip => [ip] | None => [] end
  | None => []
  end.

(** A node as the configuration leaves it: nothing compiled yet. *)
Definition listing_node (ips : list string) : Node :=
  mkNode "wl" "wl" "s01" "" false false
    (mkWhitelist "trusted" ips [] ["10.0.0.0/8"] [] ["evt.Meta.ok == 'yes'"] [])
    [] (mkEnricherCtx ∅).

Lemma CompileWLs_compiles_all_witness :
  exists logger' program,
    CompileWLs test_ParseAddr test_ParsePrefix test_Compile
      (listing_node ["192.0.2.7"; "192.0.2.8"]) []
    = (mkNode "wl" "wl" "s01" "" false false
         (mkWhitelist "trusted" ["192.0.2.7"; "192.0.2.8"] ["192.0.2.7"; "192.0.2.8"]
            ["10.0.0.0/8"] ["10.0.0.0/8"]
            ["evt.Meta.ok == 'yes'"] [mkExprWhitelist program])
         [] (mkEnricherCtx ∅),
       (true, None), logger').
Proof.
  destruct (CompileWLs_compiles_all test_ParseAddr test_ParsePrefix test_Compile
              (listing_node ["192.0.2.7"; "192.0.2.8"]) []) as [[logger' Hrun] _].
  - repeat constructor.
  - repeat constructor.
  - repeat constructor.
  - exists logger', (test_Compile "evt.Meta.ok == 'yes'").1. rewrite Hrun. reflexivity.
Defined.

Lemma CompileWLs_first_bad_address_witness :
  exists logger',
    CompileWLs test_ParseAddr test_ParsePrefix test_Compile
      (listing_node ["192.0.2.7"; "localhost"; "192.0.2.9"]) []
    = (mkNode "wl" "wl" "s01" "" false false
         (mkWhitelist "trusted" ["192.0.2.7"; "localhost"; "192.0.2.9"] ["192.0.2.7"]
            ["10.0.0.0/8"] [] ["evt.Meta.ok == 'yes'"] [])
         [] (mkEnricherCtx ∅),
       (false, Some "parsing whitelist: unable to parse IP"), logger').
Proof.
  destruct (CompileWLs_first_bad_address test_ParseAddr test_ParsePrefix test_Compile
              (listing_node ["192.0.2.7"; "localhost"; "192.0.2.9"]) []
              ["192.0.2.7"] "localhost" ["192.0.2.9"] "" "unable to parse IP")
    as [logger' Hrun].
  - reflexivity.
  - repeat constructor.
  - reflexivity.
  - exists logger'. rewrite Hrun. reflexivity.
Defined.

(** A compiled node answers for a source inside its prefix and not for
    a source outside. *)
Example CheckIPsWL_scenario :
  let n := mkNode "wl" "wl" "s01" "" false false
             (mkWhitelist "trusted" [] ["192.0.2.7"] [] ["10.0.0.0/8"] [] [])
             [] (mkEnricherCtx ∅) in
  let from ip := types.set_Meta (Some {[ "source_ip" := ip ]}) ready_event in
  (CheckIPsWL test_ParseIPSources test_Contains n (from "10.1.2.3") no_metrics []).1.1 = true /\
  (CheckIPsWL test_ParseIPSources test_Contains n (from "192.0.2.7") no_metrics []).1.1 = true /\
  (CheckIPsWL test_ParseIPSources test_Contains n (from "203.0.113.9") no_metrics []).1.1 = false.
Proof. repeat split; lazy; reflexivity. Qed.

End parser.

(* ================================================================== *)
(** * context *)
(* ================================================================== *)

Module context.

(** A context is known by how it was derived from its parent. *)
Inductive Context :=
| Background
| WithCancel (parent : Context)
| WithTimeout (parent : Context) (timeout : time.Duration).

End context.

(* ================================================================== *)
(** * pkg/longpollclient *)
(* ================================================================== *)

Module longpollclient.

(** The fields of a polled event that the PAPI client reads. *)
Record Event := mkEvent {
  Timestamp : Z;
  Category : string;
  Data : string;
  RequestId : string
}.

End longpollclient.

(* ================================================================== *)
(** * pkg/apiserver *)
(* ================================================================== *)

Module apiserver.

Definition PapiPullKey : string := "papi:last_pull".

Record Source := mkSource { User : string }.

Record Header := mkHeader {
  OperationType : string;
  OperationCmd : string;
  Timestamp : time.Time;
  HMessage : string;
  UUID : string;
  Source_ : option Source;
  Destination : string
}.

Record Message := mkMessage {
  Header_ : option Header;
  Data : any
}.

(** ** [reverse] *)

(** [a[i], a[j] = a[j], a[i]]; [None] is the panic of an index out of
    range. *)
Definition swap {A} (i j : nat) (a : list A) : option (list A) :=
  match a !! j, a !! i with
  | Some aj, Some ai => Some (<[j := ai]> (<[i := aj]> a))
  | _, _ => None
  end.

(** [for i := ...; i >= 0; i-- { opp := len(a) - 1 - i; swap }], with
    [count] iterations left: the next index is [count - 1]. *)
Fixpoint reverse_loop {A} (count : nat) (a : list A) : option (list A) :=
  match count with
  | O => Some a
  | S i =>
      let opp := (length a - 1 - i)%nat in
      match swap i opp a with
      | Some a => reverse_loop i a
      | None => None
      end
  end.

(** The copy [a] of [s] is [s] itself; the loop starts at
    [len(a)/2 - 1]. *)
Definition reverse {A} (s : list A) : option (list A) :=
  let a := s in
  reverse_loop (length a / 2)%nat a.

(** *** [reverse] reverses *)

Lemma swap_ends {A} (l1 m l2 : list A) (x y : A) :
  swap (length l1) (length l1 + 1 + length m) (l1 ++ x :: m ++ y :: l2)
  = Some (l1 ++ y :: m ++ x :: l2).
Proof.
  unfold swap.
  assert (Hj : (l1 ++ x :: m ++ y :: l2) !! (length l1 + 1 + length m)%nat = Some y).
  { replace (l1 ++ x :: m ++ y :: l2) with ((l1 ++ x :: m) ++ y :: l2)
      by (by rewrite <- app_assoc).
    apply list_lookup_middle. rewrite length_app. simpl. lia. }
  assert (Hi : (l1 ++ x :: m ++ y :: l2) !! length l1 = Some x)
    by by apply list_lookup_middle.
  rewrite Hj, Hi. f_equal.
  rewrite insert_app_r_alt by lia. rewrite Nat.sub_diag. simpl.
  replace (l1 ++ y :: m ++ y :: l2) with ((l1 ++ y :: m) ++ y :: l2)
    by (by rewrite <- app_assoc).
  rewrite insert_app_r_alt by (rewrite length_app; simpl; lia).
  replace (length l1 + 1 + length m - length (l1 ++ y :: m))%nat with 0%nat
    by (rewrite length_app; simpl; lia).
  simpl. by rewrite <- app_assoc.
Qed.

(** With as many iterations left as the untouched prefix is long, the
    loop mirrors the prefix and the suffix around the middle. *)
Lemma reverse_loop_shape {A} (pre mid post : list A) :
  length pre = length post ->
  reverse_loop (length pre) (pre ++ mid ++ post) = Some (rev post ++ mid ++ rev pre).
Proof.
  revert mid post. induction pre as [|x pre IH] using rev_ind; intros mid post Hlen.
  - destruct post; [|done]. simpl. by rewrite app_nil_r.
  - destruct post as [|y post]; [rewrite length_app in Hlen; simpl in Hlen; lia|].
    rewrite length_app in Hlen. simpl in Hlen.
    assert (Hpre : length pre = length post) by lia.
    rewrite length_app. simpl length. rewrite Nat.add_1_r. cbn [reverse_loop].
    replace ((pre ++ [x]) ++ mid ++ y :: post) with (pre ++ x :: mid ++ y :: post)
      by (by rewrite <- app_assoc).
    replace (length (pre ++ x :: mid ++ y :: post) - 1 - length pre)%nat
      with (length pre + 1 + length mid)%nat
      by (rewrite length_app; simpl; rewrite length_app; simpl; lia).
    rewrite swap_ends.
    assert (Hmid : pre ++ y :: mid ++ x :: post = pre ++ (y :: mid ++ [x]) ++ post).
    { simpl. by rewrite <- app_assoc. }
    rewrite Hmid, (IH _ _ Hpre). f_equal. simpl. rewrite rev_app_distr. simpl.
    by rewrite <- !app_assoc.
Qed.

(** The in-place swap loop of [reverse] never indexes out of range and
    yields the reversed list. *)
Lemma reverse_is_rev {A} (s : list A) : reverse s = Some (rev s).
Proof.
  unfold reverse.
  set (n := length s). set (h := (n / 2)%nat).
  assert (Hh : (2 * h <= n /\ n - 2 * h <= 1)%nat).
  { pose proof (Nat.div_mod_eq n 2) as Hd. pose proof (Nat.mod_upper_bound n 2) as Hm.
    fold h in Hd. lia. }
  set (mid := take (n - 2 * h) (drop h s)).
  assert (Hs : s = take h s ++ mid ++ drop (n - h) s).
  { unfold mid. rewrite <- (take_drop h s) at 1. f_equal.
    rewrite <- (take_drop (n - 2 * h) (drop h s)) at 1. f_equal.
    rewrite drop_drop. f_equal. lia. }
  assert (Hlen : length (take h s) = length (drop (n - h) s)).
  { rewrite length_take, length_drop. fold n. lia. }
  assert (Hh' : h = length (take h s)) by (rewrite length_take; fold n; lia).
  assert (Hmid : (length mid <= 1)%nat) by (unfold mid; rewrite length_take; lia).
  assert (Hrev : rev s = rev (drop (n - h) s) ++ mid ++ rev (take h s)).
  { rewrite Hs at 1. rewrite !rev_app_distr, <- app_assoc.
    destruct mid as [|a [|b mid']]; simpl in *; try done; lia. }
  transitivity (reverse_loop (length (take h s)) (take h s ++ mid ++ drop (n - h) s)).
  - by rewrite <- Hh', <- Hs.
  - by rewrite (reverse_loop_shape _ _ _ Hlen), Hrev.
Qed.

(** [reverse] never indexes out of range, whatever the length of the
    slice; the result has the length of the argument and its element at
    index [i] is the argument's at index [len(s) - 1 - i]; reversing
    twice gives the argument back. *)
Theorem reverse_twice {A} (s : list A) :
  exists r,
    reverse s = Some r /\
    length r = length s /\
    (forall i, (i < length s)%nat -> r !! i = s !! (length s - 1 - i)%nat) /\
    reverse r = Some s.
Proof.
  exists (rev s). rewrite !reverse_is_rev, rev_involutive, length_rev.
  repeat split.
  intros i Hi. rewrite rev_alt. change (rev_append s []) with (list.reverse s).
  rewrite reverse_lookup by done. f_equal. lia.
Qed.

Section Papi.

(** What the operation handlers and the database client act on: the
    database, the channels and the API client behind a [*Papi]. *)
Variable World : Type.

(** The state of a [*Papi] as far as this file follows it. *)
Record Papi := mkPapi {
  world : World;
  Logger : log.Log
}.

Definition logf (lv : log.Level) (fmt : string) (a : list log.Arg) (p : Papi) : Papi :=
  mkPapi (world p) (log.emit lv fmt a (Logger p)).

(** [json.Unmarshal([]byte(data), message)] into a fresh [Message]. *)
Variable json_Unmarshal : string -> Message * option error.

(** The three operation handlers of [operationMap]. *)
Variable DecisionCmd AlertCmd ManagementCmd :
  Message -> World -> bool -> World * option error.

(** The database client's configuration items. *)
Variable GetConfigItem : context.Context -> string -> World -> string * option error.
Variable SetConfigItem : context.Context -> string -> string -> World -> World * option error.

(** The long-poll transport's [PullOnce]. *)
Variable Client_PullOnce :
  context.Context -> time.Time -> World -> list longpollclient.Event * option error.

(** [apiClient.DecisionDelete.Add]. *)
Variable DecisionDelete_Add :
  context.Context -> list string -> World -> World * option error.

(** [time.Time.MarshalText]. *)
Variable MarshalText : time.Time -> string.

Definition operationMap (operationType : string)
    : option (Message -> World -> bool -> World * option error) :=
  if decide (operationType = "decision") then Some DecisionCmd
  else if decide (operationType = "alert") then Some AlertCmd
  else if decide (operationType = "management") then Some ManagementCmd
  else None.

(** ** [handleEvent] *)

Definition handleEvent (event : longpollclient.Event) (sync : bool) (p : Papi)
    : Papi * option error :=
  let p := logf log.Debug "message received: %+v" [log.AStr (longpollclient.Data event)] p in
  let '(message, err) := json_Unmarshal (longpollclient.Data event) in
  match err with
  | Some err =>
      (p, Some ("polling papi message format is not compatible: "
                +:+ longpollclient.Data event +:+ ": " +:+ err))
  | None =>
      match Header_ message with
      | None => (p, Some "no header in message, skipping")
      | Some header =>
          match Source_ header with
          | None => (p, Some "no source user in header message, skipping")
          | Some _ =>
              match operationMap (OperationType header) with
              | None =>
                  (p, Some ("operation '" +:+ OperationType header +:+ "' unknown, continue"))
              | Some operationFunc =>
                  let p :=
                    logf log.Debug "Calling operation '%s'"
                      [log.AStr (OperationType header)] p in
                  let '(w, err) := operationFunc message (world p) sync in
                  let p := mkPapi w (Logger p) in
                  match err with
                  | Some err =>
                      (p, Some ("'" +:+ OperationType header +:+ " " +:+ OperationCmd header
                                +:+ " failed: " +:+ err))
                  | None => (p, None)
                  end
              end
          end
      end
  end.

(** ** [PullOnce] *)

(** [for i, event := range reversedEvents { ... }], entered at index [i]. *)
Fixpoint events_loop (sync : bool) (eventsCount : nat) (i : nat)
    (reversedEvents : list longpollclient.Event) (p : Papi) : Papi :=
  match reversedEvents with
  | [] => p
  | event :: rest =>
      let '(p, err) := handleEvent event sync p in
      let p :=
        match err with
        | Some err => logf log.Error "failed to handle event: %s" [log.AStr err] p
        | None => p
        end in
      let p :=
        logf log.Debug "handled event %d/%d"
          [log.AInt (Z.of_nat i); log.AInt (Z.of_nat eventsCount)] p in
      events_loop sync eventsCount (S i) rest p
  end.

(** How [PullOnce] ends: it returns, or panics in [reverse]. *)
Inductive PullResult :=
| Pulled (p : Papi) (err : option error)
| PullPanicked.

Definition PullOnce (ctx : context.Context) (since : time.Time) (sync : bool) (p : Papi)
    : PullResult :=
  let '(events, err) := Client_PullOnce ctx since (world p) in
  match err with
  | Some err => Pulled p (Some err)
  | None =>
      match reverse events with
      | None => PullPanicked
      | Some reversedEvents =>
          let eventsCount := length events in
          let p := logf log.Info "received %d events" [log.AInt (Z.of_nat eventsCount)] p in
          let p := events_loop sync eventsCount 0 reversedEvents p in
          let p := logf log.Debug "finished handling events" [] p in
          (* Don't update the timestamp in DB, as a "real" LAPI might be running *)
          Pulled p None
      end
  end.

(** ** The body of the [Pull] loop for a polled event *)

(** The variables of [Pull] that live across iterations. *)
Record PullState := mkPullState {
  papi : Papi;
  lastTimestamp : time.Time
}.

(** [case event := <-papiChan: ...]; [now] is [time.Now().UTC()].  The
    result is the state in which the loop goes on. *)
Definition Pull_on_event (ctx : context.Context) (now : time.Time)
    (event : longpollclient.Event) (st : PullState) : PullState :=
  (* update last timestamp in database *)
  let newTime := now in
  let binTime := MarshalText newTime in
  let lastTimestamp := newTime in
  let '(p, err) := handleEvent event false (papi st) in
  match err with
  | Some err =>
      mkPullState (logf log.Error "failed to handle event: %s" [log.AStr err] p) lastTimestamp
  | None =>
      let '(w, err) := SetConfigItem ctx PapiPullKey binTime (world p) in
      let p := mkPapi w (Logger p) in
      let p :=
        match err with
        | Some err =>
            (* Killing PAPI is overkill if we cannot update the last timestamp *)
            logf log.Error "failed to update last timestamp in database: %s" [log.AStr err] p
        | None => p
        end in
      let p := logf log.Debug "set last timestamp to %s" [log.AInt newTime] p in
      mkPullState p lastTimestamp
  end.

(** ** [SendDeletedDecisions] *)

Definition batchSize : nat := 50.

Definition sendDeletedDecisionsBatch (ctx : context.Context) (decisions : list string)
    (p : Papi) : Papi * option error :=
  let ctxBatch := context.WithTimeout ctx (5 * time.Second) in
  let '(w, err) := DecisionDelete_Add ctxBatch decisions (world p) in
  (mkPapi w (Logger p), err).

(** [cache[start:end]] for [start <= end <= len(cache)]. *)
Definition slice {A} (cache : list A) (start end_ : nat) : list A :=
  take (end_ - start)%nat (drop start cache).

(** [for start := ...; start < len(cache); start += batchSize { ... }],
    entered at [start].  The loop is bounded by [fuel] iterations; [None]
    is running out of them. *)
Fixpoint send_loop (fuel : nat) (ctx : context.Context) (cache : list string)
    (start : nat) (p : Papi) : option Papi :=
  if decide (start < length cache)%nat then
    match fuel with
    | O => None
    | S fuel =>
        let end_ := Nat.min (start + batchSize) (length cache) in
        match sendDeletedDecisionsBatch ctx (slice cache start end_) p with
        | (p, Some err) =>
            Some (logf log.Error "sending deleted decisions to central API: %s"
                    [log.AStr err] p)
        | (p, None) => send_loop fuel ctx cache (start + batchSize)%nat p
        end
    end
  else Some p.

(** Every iteration advances [start] by [batchSize], so [len(cache)]
    iterations are more than the loop can make. *)
Definition SendDeletedDecisions (ctx : context.Context) (cacheOrig : list string)
    (p : Papi) : option Papi :=
  let cache := cacheOrig in
  send_loop (length cache) ctx cache 0 p.

(** *** In the words of the specification *)

(** The consecutive chunks of [batchSize] identifiers. *)
Definition chunks_from (cache : list string) (start : nat) : list (list string) :=
  map (fun k => take batchSize (drop (start + k * batchSize)%nat cache))
    (seq 0 ((length cache - start + (batchSize - 1)) / batchSize)%nat).

Definition chunks_of (cache : list string) : list (list string) := chunks_from cache 0.

(** Send each chunk as an independent call bounded by its own timeout of
    five seconds; on the first failure log it and drop the rest. *)
Fixpoint send_chunks (ctx : context.Context) (chunks : list (list string)) (p : Papi)
    : Papi :=
  match chunks with
  | [] => p
  | chunk :: rest =>
      match DecisionDelete_Add (context.WithTimeout ctx (5 * time.Second)) chunk (world p) with
      | (w, Some err) =>
          logf log.Error "sending deleted decisions to central API: %s" [log.AStr err]
            (mkPapi w (Logger p))
      | (w, None) => send_chunks ctx rest (mkPapi w (Logger p))
      end
  end.

(** *** The properties of [PullOnce] *)

(** The payloads that [handleEvent] logged on entry, in order: the trace
    of the events it was called on. *)
Definition received (l : log.Log) : list string :=
  omap (fun en =>
          if decide (log.format en = "message received: %+v") then
            match log.args en with
            | [log.AStr data] => Some data
            | _ => None
            end
          else None) l.

Lemma received_emit lv fmt a l :
  received (log.emit lv fmt a l) =
  received l ++
  (if decide (fmt = "message received: %+v") then
     match a with
     | [log.AStr data] => [data]
     | _ => []
     end
   else []).
Proof.
  unfold received, log.emit. rewrite omap_app. f_equal. simpl.
  destruct (decide (fmt = "message received: %+v")); [|done].
  by destruct a as [|[] []].
Qed.

Lemma handleEvent_received event sync p :
  received (Logger (handleEvent event sync p).1)
  = received (Logger p) ++ [longpollclient.Data event].
Proof.
  unfold handleEvent.
  destruct (json_Unmarshal (longpollclient.Data event)) as [message [err|]];
    [simpl; by rewrite received_emit|].
  destruct (Header_ message) as [header|]; [|simpl; by rewrite received_emit].
  destruct (Source_ header); [|simpl; by rewrite received_emit].
  destruct (operationMap (OperationType header)) as [operationFunc|];
    [|simpl; by rewrite received_emit].
  cbn [logf world Logger].
  destruct (operationFunc message (world p) sync) as [w [err|]]; simpl;
    rewrite !received_emit; simpl; by rewrite app_nil_r.
Qed.

Lemma events_loop_received sync eventsCount i events p :
  received (Logger (events_loop sync eventsCount i events p))
  = received (Logger p) ++ map longpollclient.Data events.
Proof.
  revert i p. induction events as [|event rest IH]; intros i p; simpl.
  - by rewrite app_nil_r.
  - pose proof (handleEvent_received event sync p) as Hrecv.
    destruct (handleEvent event sync p) as [p1 [err|]]; simpl in Hrecv;
      rewrite IH; simpl; rewrite !received_emit; simpl;
      rewrite ?app_nil_r, Hrecv, <- app_assoc; done.
Qed.

(** C3.  When the transport delivers [events], [PullOnce] returns
    without error after running the dispatch loop over [rev events]: the
    events reach [handleEvent] in the reverse of the order of delivery,
    all of them, whatever the handlers answer.  A failing [handleEvent]
    is logged at level [Error] and the loop goes on with the next event. *)
Theorem PullOnce_dispatch_order ctx since sync p events :
  Client_PullOnce ctx since (world p) = (events, None) ->
  let eventsCount := length events in
  let p0 := logf log.Info "received %d events" [log.AInt (Z.of_nat eventsCount)] p in
  let p1 := events_loop sync eventsCount 0 (rev events) p0 in
  PullOnce ctx since sync p = Pulled (logf log.Debug "finished handling events" [] p1) None /\
  received (Logger p1) = received (Logger p) ++ map longpollclient.Data (rev events) /\
  (forall i event rest q q1 err,
     handleEvent event sync q = (q1, Some err) ->
     events_loop sync eventsCount i (event :: rest) q
     = events_loop sync eventsCount (S i) rest
         (logf log.Debug "handled event %d/%d"
            [log.AInt (Z.of_nat i); log.AInt (Z.of_nat eventsCount)]
            (logf log.Error "failed to handle event: %s" [log.AStr err] q1))).
Proof.
  intros Hpull eventsCount p0 p1. split; [|split].
  - unfold PullOnce. by rewrite Hpull, reverse_is_rev.
  - unfold p1. rewrite events_loop_received. unfold p0. simpl.
    rewrite received_emit. simpl. by rewrite app_nil_r.
  - intros i event rest q q1 err Hhandle. simpl. by rewrite Hhandle.
Qed.

(** The handler never changes what the database answers for the pull
    key. *)
Definition keeps_checkpoint (handler : Message -> World -> bool -> World * option error)
    : Prop :=
  forall c message w sync,
    GetConfigItem c PapiPullKey (handler message w sync).1 = GetConfigItem c PapiPullKey w.

Lemma handleEvent_keeps_checkpoint event sync p c :
  keeps_checkpoint DecisionCmd -> keeps_checkpoint AlertCmd ->
  keeps_checkpoint ManagementCmd ->
  GetConfigItem c PapiPullKey (world (handleEvent event sync p).1)
  = GetConfigItem c PapiPullKey (world p).
Proof.
  intros Hd Ha Hm. unfold handleEvent.
  destruct (json_Unmarshal (longpollclient.Data event)) as [message [err|]]; [done|].
  destruct (Header_ message) as [header|]; [|done].
  destruct (Source_ header); [|done].
  unfold operationMap.
  repeat case_decide; try done;
    cbn [logf world Logger];
    match goal with
    | Hk : keeps_checkpoint ?f |- context [?f message (world p) sync] =>
        specialize (Hk c message (world p) sync);
        destruct (f message (world p) sync) as [w [err|]]; simpl in *; done
    end.
Qed.

Lemma events_loop_keeps_checkpoint sync eventsCount i events p c :
  keeps_checkpoint DecisionCmd -> keeps_checkpoint AlertCmd ->
  keeps_checkpoint ManagementCmd ->
  GetConfigItem c PapiPullKey (world (events_loop sync eventsCount i events p))
  = GetConfigItem c PapiPullKey (world p).
Proof.
  intros Hd Ha Hm. revert i p.
  induction events as [|event rest IH]; intros i p; simpl; [done|].
  pose proof (handleEvent_keeps_checkpoint event sync p c Hd Ha Hm) as Hstep.
  destruct (handleEvent event sync p) as [p1 [err|]]; simpl in Hstep;
    rewrite IH; simpl; done.
Qed.

(** C4.  Provided the operation handlers leave the pull key of the
    database alone, [PullOnce] returns, and what the database answers
    for the pull key after it is what it answered before, however many
    events were dispatched. *)
Theorem PullOnce_keeps_checkpoint ctx since sync p :
  keeps_checkpoint DecisionCmd -> keeps_checkpoint AlertCmd ->
  keeps_checkpoint ManagementCmd ->
  exists p' err,
    PullOnce ctx since sync p = Pulled p' err /\
    forall c, GetConfigItem c PapiPullKey (world p') = GetConfigItem c PapiPullKey (world p).
Proof.
  intros Hd Ha Hm. unfold PullOnce.
  destruct (Client_PullOnce ctx since (world p)) as [events [err|]].
  - by exists p, (Some err).
  - rewrite reverse_is_rev. eexists _, None. split; [done|].
    intros c. simpl. by rewrite events_loop_keeps_checkpoint.
Qed.

(** *** The properties of the [Pull] loop *)

(** C5 (as amended).  For a polled event the loop sets its checkpoint
    [lastTimestamp] to the current time before it dispatches the event.
    If the dispatch fails, the failure is logged and nothing is
    persisted: the database is as the handler left it.  If it succeeds,
    the current time is written under the pull key; a failure of that
    write is logged.  In every case the loop goes on. *)
Theorem Pull_on_event_checkpoint ctx now event st :
  let st' := Pull_on_event ctx now event st in
  lastTimestamp st' = now /\
  (forall p1 err,
     handleEvent event false (papi st) = (p1, Some err) ->
     papi st' = logf log.Error "failed to handle event: %s" [log.AStr err] p1) /\
  (forall p1,
     handleEvent event false (papi st) = (p1, None) ->
     world (papi st') = (SetConfigItem ctx PapiPullKey (MarshalText now) (world p1)).1 /\
     forall err,
       (SetConfigItem ctx PapiPullKey (MarshalText now) (world p1)).2 = Some err ->
       Logger (papi st')
       = Logger p1
           ++ [log.mkEntry log.Error "failed to update last timestamp in database: %s"
                 [log.AStr err];
               log.mkEntry log.Debug "set last timestamp to %s" [log.AInt now]]).
Proof.
  intros st'. unfold st', Pull_on_event. split; [|split].
  - destruct (handleEvent event false (papi st)) as [p1 [err|]]; [done|].
    by destruct (SetConfigItem ctx PapiPullKey (MarshalText now) (world p1)) as [w [e|]].
  - intros p1 err ->. done.
  - intros p1 ->.
    destruct (SetConfigItem ctx PapiPullKey (MarshalText now) (world p1)) as [w [e|]];
      simpl; (split; [done|]); intros err Herr; [|done].
    inversion Herr; subst. unfold log.emit. by rewrite <- app_assoc.
Qed.

(** *** The properties of [SendDeletedDecisions] *)

Lemma div_up_step (d : nat) :
  (0 < d)%nat -> ((d + 49) / 50 = S ((d - 50 + 49) / 50))%nat.
Proof.
  intros Hd. destruct (le_lt_dec 50 d) as [Hge|Hlt].
  - replace (d + 49)%nat with (d - 50 + 49 + 1 * 50)%nat by lia.
    rewrite Nat.div_add by lia. lia.
  - replace (d + 49)%nat with (d - 1 + 1 * 50)%nat by lia.
    rewrite Nat.div_add by lia.
    replace (d - 50 + 49)%nat with 49%nat by lia.
    rewrite !Nat.div_small by lia. lia.
Qed.

Lemma chunks_from_done cache start :
  (length cache <= start)%nat -> chunks_from cache start = [].
Proof.
  intros Hge. unfold chunks_from, batchSize.
  replace (length cache - start + (50 - 1))%nat with 49%nat by lia.
  by rewrite Nat.div_small by lia.
Qed.

Lemma chunks_from_next cache start :
  (start < length cache)%nat ->
  chunks_from cache start
  = take batchSize (drop start cache) :: chunks_from cache (start + batchSize).
Proof.
  intros Hlt. unfold chunks_from, batchSize.
  replace (length cache - start + (50 - 1))%nat with (length cache - start + 49)%nat by lia.
  rewrite div_up_step by lia. cbn [seq map]. rewrite Nat.add_0_r.
  f_equal. rewrite <- seq_shift, map_map.
  replace (length cache - (start + 50) + (50 - 1))%nat
    with (length cache - start - 50 + 49)%nat by lia.
  apply map_ext. intros k. do 2 f_equal. lia.
Qed.

(** The slice that the loop sends is the chunk. *)
Lemma slice_chunk (cache : list string) start :
  slice cache start (Nat.min (start + batchSize) (length cache))
  = take batchSize (drop start cache).
Proof.
  unfold slice. destruct (le_lt_dec (start + batchSize) (length cache)) as [Hle|Hgt].
  - by replace (Nat.min (start + batchSize) (length cache) - start)%nat with batchSize by lia.
  - rewrite !take_ge; [done | rewrite length_drop; lia | rewrite length_drop; lia].
Qed.

Lemma send_loop_chunks fuel ctx cache start p :
  (length cache - start <= fuel)%nat ->
  send_loop fuel ctx cache start p = Some (send_chunks ctx (chunks_from cache start) p).
Proof.
  revert start p. induction fuel as [|fuel IH]; intros start p Hfuel.
  - simpl. destruct (decide (start < length cache)%nat); [lia|].
    by rewrite chunks_from_done by lia.
  - cbn [send_loop]. destruct (decide (start < length cache)%nat) as [Hlt|Hge].
    + rewrite chunks_from_next by done. rewrite slice_chunk.
      cbn [send_chunks]. unfold sendDeletedDecisionsBatch.
      destruct (DecisionDelete_Add _ _ _) as [w [err|]]; [done|].
      apply IH. unfold batchSize. lia.
    + by rewrite chunks_from_done by lia.
Qed.

Lemma chunks_from_cover n cache start :
  (length cache - start <= n)%nat ->
  concat (chunks_from cache start) = drop start cache /\
  Forall (fun chunk : list string => (0 < length chunk <= batchSize)%nat)
    (chunks_from cache start).
Proof.
  revert start. induction n as [|n IH]; intros start Hn.
  - rewrite chunks_from_done by lia. split; [|constructor].
    rewrite drop_ge by lia. done.
  - destruct (le_lt_dec (length cache) start) as [Hge|Hlt].
    + rewrite chunks_from_done by lia. split; [|constructor].
      rewrite drop_ge by lia. done.
    + rewrite chunks_from_next by done.
      destruct (IH (start + batchSize)%nat) as [Hcat Hall]; [unfold batchSize; lia|].
      split.
      * simpl. rewrite Hcat, <- drop_drop. apply take_drop.
      * constructor; [|done]. rewrite length_take, length_drop. unfold batchSize. lia.
Qed.

(** C6.  A flush sends the pending identifiers as the consecutive chunks
    of at most fifty, in order, each in a call of its own under a context
    with a timeout of five seconds derived from the caller's, and stops
    at the first call that fails, which it logs.  The chunks cover the
    identifiers exactly and none is empty.  125 identifiers make the
    three chunks of sizes 50, 50 and 25; if the call for the first chunk
    fails, that call is the only one. *)
Theorem SendDeletedDecisions_chunks ctx cache p :
  SendDeletedDecisions ctx cache p = Some (send_chunks ctx (chunks_of cache) p) /\
  concat (chunks_of cache) = cache /\
  Forall (fun chunk : list string => (0 < length chunk <= batchSize)%nat)
    (chunks_of cache) /\
  (length cache = 125%nat ->
     chunks_of cache = [take 50 cache; take 50 (drop 50 cache); drop 100 cache] /\
     length <$> chunks_of cache = [50; 50; 25]%nat) /\
  (forall chunk rest w err,
     chunks_of cache = chunk :: rest ->
     DecisionDelete_Add (context.WithTimeout ctx (5 * time.Second)) chunk (world p)
       = (w, Some err) ->
     SendDeletedDecisions ctx cache p
     = Some (logf log.Error "sending deleted decisions to central API: %s" [log.AStr err]
               (mkPapi w (Logger p)))).
Proof.
  assert (Hrun : SendDeletedDecisions ctx cache p
                 = Some (send_chunks ctx (chunks_of cache) p)).
  { unfold SendDeletedDecisions, chunks_of. apply send_loop_chunks. lia. }
  destruct (chunks_from_cover (length cache) cache 0) as [Hcat Hall]; [lia|].
  split; [done|]. split; [done|]. split; [done|]. split.
  - intros Hlen.
    assert (Hchunks : chunks_of cache
                      = [take 50 cache; take 50 (drop 50 cache); drop 100 cache]).
    { unfold chunks_of. rewrite chunks_from_next by lia.
      rewrite chunks_from_next by (unfold batchSize; lia).
      rewrite chunks_from_next by (unfold batchSize; lia).
      rewrite chunks_from_done by (unfold batchSize; lia).
      unfold batchSize. simpl. rewrite (take_ge (drop 100 cache)); [done|].
      rewrite length_drop. lia. }
    split; [done|]. rewrite Hchunks. simpl.
    rewrite !length_take, !length_drop, Hlen. done.
  - intros chunk rest w err Hchunks Hfail. rewrite Hrun, Hchunks. simpl.
    by rewrite Hfail.
Qed.

(** *** Further properties of [handleEvent] and [PullOnce] *)


(** [PullOnce] always returns: the reversal of the pulled events cannot
    panic.  Its error is the transport's error, never a handler's; and
    when the transport fails nothing is logged and no event is
    handled. *)
Theorem PullOnce_returns ctx since sync p :
  exists p',
    PullOnce ctx since sync p = Pulled p' (Client_PullOnce ctx since (world p)).2 /\
    ((Client_PullOnce ctx since (world p)).2 <> None -> p' = p).
Proof.
  unfold PullOnce.
  destruct (Client_PullOnce ctx since (world p)) as [events [err|]]; simpl.
  - by exists p.
  - rewrite reverse_is_rev. eexists. split; [reflexivity | done].
Qed.

End Papi.

(** *** Fixtures: a database of configuration items, handlers and a
    central API that record what they are called on *)

Record TestWorld := mkTestWorld {
  config : gmap string string;
  handled : list string;
  sent : list (context.Context * list string)
}.

(** The payload is taken for the UUID of a decision; [""] does not
    decode, ["{}"] decodes to a message without header, ["ping"] is an
    operation type that does not exist. *)
Definition test_Unmarshal (data : string) : Message * option error :=
  if decide (data = "") then (mkMessage None VNil, Some "unexpected end of JSON input")
  else if decide (data = "{}") then (mkMessage None VNil, None)
  else
    let operationType := if decide (data = "ping") then "ping" else "decision" in
    (mkMessage (Some (mkHeader operationType "delete" 0 "" data (Some (mkSource "admin")) ""))
       VNil, None).

Definition uuid_of (message : Message) : string :=
  match Header_ message with
  | Some header => UUID header
  | None => ""
  end.

(** The handlers note the UUID; the decision handler fails on ["d2"]. *)
Definition test_DecisionCmd (message : Message) (w : TestWorld) (sync : bool)
    : TestWorld * option error :=
  (mkTestWorld (config w) (handled w ++ [uuid_of message]) (sent w),
   if decide (uuid_of message = "d2") then Some "decision not found" else None).

Definition test_OtherCmd (message : Message) (w : TestWorld) (sync : bool)
    : TestWorld * option error :=
  (mkTestWorld (config w) (handled w ++ [uuid_of message]) (sent w), None).

Definition test_GetConfigItem (c : context.Context) (key : string) (w : TestWorld)
    : string * option error :=
  (default "" (config w !! key), None).

Definition test_SetConfigItem (c : context.Context) (key value : string) (w : TestWorld)
    : TestWorld * option error :=
  (mkTestWorld (<[key := value]> (config w)) (handled w) (sent w), None).

(** The transport delivers three events, newest first. *)
Definition polled (data : string) : longpollclient.Event :=
  longpollclient.mkEvent 0 "" data "req".

Definition test_Client_PullOnce (c : context.Context) (since : time.Time) (w : TestWorld)
    : list longpollclient.Event * option error :=
  ([polled "d3"; polled "d2"; polled "d1"], None).

(** The central API notes each call; a call that carries ["poison"]
    fails. *)
Definition test_Add (c : context.Context) (ids : list string) (w : TestWorld)
    : TestWorld * option error :=
  (mkTestWorld (config w) (handled w) (sent w ++ [(c, ids)]),
   if decide ("poison" ∈ ids) then Some "503 Service Unavailable" else None).

Definition fresh_papi : Papi TestWorld :=
  mkPapi TestWorld (mkTestWorld {[ PapiPullKey := "0" ]} [] []) [].

Lemma PullOnce_dispatch_order_witness :
  exists p',
    PullOnce TestWorld test_Unmarshal test_DecisionCmd test_OtherCmd test_OtherCmd
      test_Client_PullOnce context.Background 0 true fresh_papi = Pulled TestWorld p' None /\
    received (Logger TestWorld p') = ["d1"; "d2"; "d3"] /\
    handled (world TestWorld p') = ["d1"; "d2"; "d3"].
Proof.
  destruct (PullOnce_dispatch_order TestWorld test_Unmarshal test_DecisionCmd test_OtherCmd
              test_OtherCmd test_Client_PullOnce context.Background 0 true fresh_papi
              [polled "d3"; polled "d2"; polled "d1"] eq_refl) as (Hrun & Hrecv & _).
  eexists. split; [exact Hrun|]. split; [|vm_compute; reflexivity].
  cbn [logf Logger]. rewrite received_emit. rewrite Hrecv. vm_compute. reflexivity.
Defined.

Lemma test_handlers_keep_checkpoint :
  keeps_checkpoint TestWorld test_GetConfigItem test_DecisionCmd /\
  keeps_checkpoint TestWorld test_GetConfigItem test_OtherCmd.
Proof. split; intros c message w sync; reflexivity. Qed.

Lemma PullOnce_keeps_checkpoint_witness :
  exists p' err,
    PullOnce TestWorld test_Unmarshal test_DecisionCmd test_OtherCmd test_OtherCmd
      test_Client_PullOnce context.Background 0 true fresh_papi = Pulled TestWorld p' err /\
    forall c,
      test_GetConfigItem c PapiPullKey (world TestWorld p')
      = test_GetConfigItem c PapiPullKey (world TestWorld fresh_papi).
Proof.
  exact (PullOnce_keeps_checkpoint TestWorld test_Unmarshal test_DecisionCmd test_OtherCmd
           test_OtherCmd test_GetConfigItem test_Client_PullOnce context.Background 0 true
           fresh_papi (proj1 test_handlers_keep_checkpoint)
           (proj2 test_handlers_keep_checkpoint) (proj2 test_handlers_keep_checkpoint)).
Defined.

(** C5, as stated, fails for an event whose dispatch fails: the loop
    moves its checkpoint to the current time, but the database keeps the
    old one. *)
Lemma Pull_on_event_claim_counterexample :
  let st := mkPullState TestWorld fresh_papi 0 in
  let st' :=
    Pull_on_event TestWorld test_Unmarshal test_DecisionCmd test_OtherCmd test_OtherCmd
      test_SetConfigItem pretty context.Background 42 (polled "d2") st in
  (handleEvent TestWorld test_Unmarshal test_DecisionCmd test_OtherCmd test_OtherCmd
     (polled "d2") false fresh_papi).2 = Some "'decision delete failed: decision not found" /\
  lastTimestamp TestWorld st' = 42 /\
  test_GetConfigItem context.Background PapiPullKey (world TestWorld (papi TestWorld st'))
    = ("0", None) /\
  pretty 42 <> "0".
Proof. vm_compute. repeat split; discriminate. Qed.

Lemma Pull_on_event_checkpoint_witness :
  let st := mkPullState TestWorld fresh_papi 0 in
  let st' :=
    Pull_on_event TestWorld test_Unmarshal test_DecisionCmd test_OtherCmd test_OtherCmd
      test_SetConfigItem pretty context.Background 42 (polled "d1") st in
  lastTimestamp TestWorld st' = 42 /\
  config (world TestWorld (papi TestWorld st')) !! PapiPullKey = Some "42".
Proof.
  intros st st'.
  destruct (Pull_on_event_checkpoint TestWorld test_Unmarshal test_DecisionCmd test_OtherCmd
              test_OtherCmd test_SetConfigItem pretty context.Background 42 (polled "d1") st)
    as (Hlast & _ & Hpersist).
  split; [exact Hlast|].
  destruct (Hpersist _ eq_refl) as [Hworld _]. unfold st'. rewrite Hworld.
  vm_compute. reflexivity.
Defined.

Example Pull_on_event_persists :
  let st := mkPullState TestWorld fresh_papi 0 in
  let st' :=
    Pull_on_event TestWorld test_Unmarshal test_DecisionCmd test_OtherCmd test_OtherCmd
      test_SetConfigItem pretty context.Background 42 (polled "d1") st in
  lastTimestamp TestWorld st' = 42 /\
  test_GetConfigItem context.Background PapiPullKey (world TestWorld (papi TestWorld st'))
    = ("42", None).
Proof. vm_compute. done. Qed.

(** Scenario P6: 125 identifiers go out as 50, 50 and 25, each under its
    own five-second context; with a poisoned first chunk there is one
    call only. *)
Definition ids (first : string) : list string :=
  first :: map (fun k => "id" +:+ pretty k) (seq 1 124).

Lemma SendDeletedDecisions_chunks_witness :
  length <$> chunks_of (ids "id0") = [50; 50; 25]%nat /\
  SendDeletedDecisions TestWorld test_Add context.Background (ids "poison") fresh_papi
  = Some (logf TestWorld log.Error "sending deleted decisions to central API: %s"
            [log.AStr "503 Service Unavailable"]
            (mkPapi TestWorld
               (mkTestWorld {[ PapiPullKey := "0" ]} []
                  [(context.WithTimeout context.Background (5 * time.Second),
                    take 50 (ids "poison"))])
               [])).
Proof.
  split.
  - destruct (SendDeletedDecisions_chunks TestWorld test_Add context.Background (ids "id0")
                fresh_papi) as (_ & _ & _ & Hsizes & _).
    exact (proj2 (Hsizes eq_refl)).
  - destruct (SendDeletedDecisions_chunks TestWorld test_Add context.Background
                (ids "poison") fresh_papi) as (_ & _ & _ & Hsizes & Hfirst).
    destruct (Hsizes eq_refl) as [Hchunks _].
    apply (Hfirst _ _ _ _ Hchunks). vm_compute. reflexivity.
Defined.

Example SendDeletedDecisions_125 :
  (exists p',
     SendDeletedDecisions TestWorld test_Add context.Background (ids "id0") fresh_papi
       = Some p' /\
     (fun call => (call.1, length call.2)) <$> sent (world TestWorld p')
     = [(context.WithTimeout context.Background 5000000000, 50%nat);
        (context.WithTimeout context.Background 5000000000, 50%nat);
        (context.WithTimeout context.Background 5000000000, 25%nat)] /\
     concat (snd <$> sent (world TestWorld p')) = ids "id0") /\
  (exists p',
     SendDeletedDecisions TestWorld test_Add context.Background (ids "poison") fresh_papi
       = Some p' /\
     length <$> (snd <$> sent (world TestWorld p')) = [50%nat] /\
     log.level <$> Logger TestWorld p' = [log.Error]).
Proof.
  split; eexists; (split; [vm_compute; reflexivity|]); split; vm_compute; reflexivity.
Qed.

(** ** [SyncDecisions] *)


(** [models.Decision], of which only the UUID is read. *)
Module models.
End models.
















(** *** Fixtures for [SyncDecisions] *)





(** ** The subscription in [Pull] *)

Section Subscription.

(** [apiclient.SubscriptionTypeEnterprise] and
    [apiclient.SubscriptionTypeSecOps]. *)
Variable SubscriptionTypeEnterprise SubscriptionTypeSecOps : string.

(** The calls [Pull] makes on the long-poll client, and [cancel()]. *)
Inductive ClientCall :=
| ClientStart (since : time.Time)
| ClientStop
| CtxCancel.

(** The variables of [Pull] that the token-refresh case reads and
    writes.  The channel that [p.Client.Start(papiCtx, since)] returns is
    identified with [since]; [None] is the nil channel, on which the
    [select] never receives. *)
Record PollState := mkPollState {
  currentSubscriptionType : string;
  papiChan : option time.Time;
  calls : list ClientCall;
  poll_Logger : log.Log
}.

(** [t == SubscriptionTypeEnterprise || t == SubscriptionTypeSecOps]. *)
Definition allowed (subType : string) : bool :=
  bool_decide (subType = SubscriptionTypeEnterprise)
  || bool_decide (subType = SubscriptionTypeSecOps).

(** From [currentSubscriptionType := p.apiClient.GetSubscriptionType()]
    to the loop. *)
Definition Pull_subscribe (subType : string) (lastTimestamp : time.Time) (logger : log.Log)
    : PollState :=
  let currentSubscriptionType := subType in
  let logger :=
    log.emit log.Debug "current subscription type is %s"
      [log.AStr currentSubscriptionType] logger in
  if allowed currentSubscriptionType then
    (* If allowed to use PAPI, start it *)
    mkPollState currentSubscriptionType (Some lastTimestamp) [ClientStart lastTimestamp]
      (log.emit log.Info "Starting PAPI pull (since:%s)" [log.AInt lastTimestamp] logger)
  else mkPollState currentSubscriptionType None [] logger.

(** [case <-tokenRefreshChan: ...]; [subType] is what
    [p.apiClient.GetSubscriptionType()] answers then. *)
Definition Pull_on_token_refresh (subType : string) (lastTimestamp : time.Time)
    (st : PollState) : PollState :=
  if decide (subType = currentSubscriptionType st) then st
  else
    let currentSubscriptionType := subType in
    let logger :=
      log.emit log.Info "Subscription type changed to %s" [log.AStr subType]
        (poll_Logger st) in
    if allowed subType then
      mkPollState currentSubscriptionType (Some lastTimestamp)
        (calls st ++ [ClientStart lastTimestamp])
        (log.emit log.Info "Starting PAPI pull (since:%s)" [log.AInt lastTimestamp] logger)
    else
      (* PAPI got started but the user downgraded (or removed the engine from the console) *)
      mkPollState currentSubscriptionType None
        (calls st ++ [CtxCancel; ClientStop])
        (log.emit log.Debug "done stopping PAPI pull" []
           (log.emit log.Info "Stopping PAPI because of plan downgrade or engine removal" []
              logger)).

(** The token refreshes of a run, each with the subscription type and
    the value of [lastTimestamp] at that time. *)
Definition Pull_refreshes (refreshes : list (string * time.Time)) (st : PollState)
    : PollState :=
  fold_left (fun st r => Pull_on_token_refresh r.1 r.2 st) refreshes st.

Lemma Pull_on_token_refresh_follows subType lastTimestamp st :
  (is_Some (papiChan st) <-> allowed (currentSubscriptionType st) = true) ->
  currentSubscriptionType (Pull_on_token_refresh subType lastTimestamp st) = subType /\
  (is_Some (papiChan (Pull_on_token_refresh subType lastTimestamp st))
   <-> allowed subType = true).
Proof.
  intros Hinv. unfold Pull_on_token_refresh.
  destruct (decide (subType = currentSubscriptionType st)) as [->|Hne]; [done|].
  destruct (allowed subType) eqn:Hallowed; simpl; (split; [done|]).
  - split; [done | by eexists].
  - split; [by intros [? ?] | done].
Qed.

(** After any number of token refreshes the recorded subscription type
    is the last one read, and the channel of polled events is open
    exactly when that type is Enterprise or SecOps. *)
Theorem Pull_channel_follows_subscription subType lastTimestamp logger refreshes :
  let st := Pull_refreshes refreshes (Pull_subscribe subType lastTimestamp logger) in
  currentSubscriptionType st = default subType (last (refreshes.*1)) /\
  (is_Some (papiChan st) <-> allowed (currentSubscriptionType st) = true).
Proof.
  assert (Hstart : currentSubscriptionType (Pull_subscribe subType lastTimestamp logger)
                   = subType /\
                   (is_Some (papiChan (Pull_subscribe subType lastTimestamp logger))
                    <-> allowed subType = true)).
  { unfold Pull_subscribe. cbv zeta.
    destruct (allowed subType) eqn:Hallowed; simpl; (split; [done|]).
    - split; [done | by eexists].
    - split; [by intros [? ?] | done]. }
  generalize dependent (Pull_subscribe subType lastTimestamp logger).
  revert subType. induction refreshes as [|[t ts] rest IH]; intros subType st0 [Hcur Hchan].
  - simpl. by rewrite Hcur.
  - cbn [Pull_refreshes fold_left fst snd].
    destruct (Pull_on_token_refresh_follows t ts st0) as [Hcur' Hchan'];
      [by rewrite Hcur|].
    specialize (IH t _ (conj Hcur' Hchan')). cbv zeta in IH.
    unfold Pull_refreshes in IH. destruct IH as [IHcur IHchan].
    split; [|exact IHchan].
    rewrite IHcur. rewrite fmap_cons. cbn [fst].
    destruct (rest.*1) as [|t' rest'] eqn:Hrest; [done|].
    rewrite last_cons_cons.
    destruct (proj2 (last_is_Some (t' :: rest'))) as [x ->]; done.
Qed.

End Subscription.

(** A change from one allowed type to the other starts the client again
    without stopping it first; a downgrade cancels and stops it. *)
Example Pull_refreshes_scenario :
  let st :=
    Pull_refreshes "ENTERPRISE" "SECOPS"
      [("ENTERPRISE", 5); ("SECOPS", 7); ("COMMUNITY", 9)]
      (Pull_subscribe "ENTERPRISE" "SECOPS" "ENTERPRISE" 1 []) in
  calls st = [ClientStart 1; ClientStart 7; CtxCancel; ClientStop] /\
  papiChan st = None /\ currentSubscriptionType st = "COMMUNITY".
Proof. vm_compute. done. Qed.

End apiserver.
